(** * sentry-rate-limiter: a shallow embedding of [src/index.ts]

    The module under study is the class [SentryRateLimiter] together with
    [createBeforeSend].  The embedding follows the TypeScript source line by
    line:

    - a Sentry [ErrorEvent] is a tree of records whose optional members are
      [option]s (the [?:] members of the TypeScript types);
    - JavaScript strings are [string]s, read as their UTF-8 bytes (the form in
      which [createHash("sha256").update] consumes them); the separators [":"]
      and ["|"] are single bytes in that encoding;
    - the JavaScript numbers of the class ([Date.now()] readings, the counter,
      the options and the window length in milliseconds, line numbers) are
      modelled by [Z]: the model covers integral options and line numbers, on
      which the arithmetic of the source is exact;
    - the private [Map<string, ErrorRateLimit>] is a [gmap string
      ErrorRateLimit]; the in-place updates [existing.count++] and
      [existing.lastSeen = now] become an [insert] at the same key;
    - [Date.now()] is an explicit argument [now] of each operation, and the
      host's interval timers are an explicit [Host] value;
    - an event as it arrives at run time, where an element of [frames] can be
      [null], is a [RawEvent]; on it the fingerprint can throw;
    - the SHA-256 digest of Node's [crypto] module is a parameter of the
      development. *)

From Stdlib Require Import ZArith String Ascii List Lia.
From Stdlib Require Import Numbers.DecimalString Numbers.DecimalZ.
From stdpp Require Import base option list strings gmap fin_maps.

Local Open Scope string_scope.
Local Open Scope Z_scope.

(** ** JavaScript values used by the source *)

Module JS.

(** [a || b] on possibly-undefined strings: [undefined] and [""] are falsy. *)
Definition truthy (o : option string) : bool :=
  match o with
  | Some s => negb (String.eqb s "")
  | None => false
  end.

Definition or (a b : option string) : option string :=
  if truthy a then a else b.

(** [a || "literal"]: the right operand is a string, so is the result. *)
Definition or_lit (a : option string) (d : string) : string :=
  match a with
  | Some s => if String.eqb s "" then d else s
  | None => d
  end.

(** [String(n)] for an integral number. *)
Definition numberToString (n : Z) : string :=
  NilEmpty.string_of_int (Z.to_int n).

(** A template-literal hole [${x}]: [undefined] prints as that word. *)
Definition tmpl_string (o : option string) : string :=
  default "undefined" o.

Definition tmpl_number (o : option Z) : string :=
  from_option numberToString "undefined" o.

(** [Array.prototype.slice(-n)]: the last [n] elements, all of them when the
    array is shorter. *)
Definition slice_last {A} (n : nat) (l : list A) : list A :=
  drop (length l - n)%nat l.

(** [Array.prototype.join(sep)]. *)
Fixpoint join (sep : string) (l : list string) : string :=
  match l with
  | [] => ""
  | [s] => s
  | s :: rest => s ++ sep ++ join sep rest
  end.

End JS.

(** ** The event shape read by the fingerprinter *)

Record StackFrame := {
  filename : option string;
  lineno : option Z
}.

Record Stacktrace := {
  frames : option (list StackFrame)
}.

Record Exception := {
  type : option string;
  value : option string;
  stacktrace : option Stacktrace
}.

Record ExceptionInfo := {
  values : option (list Exception)
}.

Record ErrorEvent := {
  message : option string;
  exception : option ExceptionInfo
}.

(** [event.exception?.values?.[0]] *)
Definition firstException (event : ErrorEvent) : option Exception :=
  info ← exception event; vs ← values info; head vs.

(** An event with one exception whose stack trace holds the frames [fs]. *)
Definition eventWithFrames (m t v : option string) (fs : list StackFrame)
    : ErrorEvent :=
  {| message := m;
     exception :=
       Some {| values :=
                 Some [ {| type := t; value := v;
                           stacktrace := Some {| frames := Some fs |} |} ] |} |}.

(** ** Tracker state *)

Record ErrorRateLimit := {
  count : Z;
  firstSeen : Z;
  lastSeen : Z
}.

Record SentryRateLimiterOptions := {
  opt_maxReportsPerWindow : option Z;
  opt_windowHours : option Z;
  opt_cleanupIntervalMinutes : option Z
}.

(** A handle returned by [setInterval]. *)
Definition Timeout := N.

(** The host's table of live interval timers: handle to period. *)
Record Host := {
  intervals : gmap N Z;
  nextHandle : N
}.

Record SentryRateLimiter := {
  errorCounts : gmap string ErrorRateLimit;
  maxReportsPerWindow : Z;
  windowMs : Z;
  cleanupIntervalMs : Z;
  cleanupTimer : option Timeout
}.

(** The map is the only mutable member besides the timer handle. *)
Definition withErrorCounts (rl : SentryRateLimiter)
    (m : gmap string ErrorRateLimit) : SentryRateLimiter :=
  {| errorCounts := m;
     maxReportsPerWindow := maxReportsPerWindow rl;
     windowMs := windowMs rl;
     cleanupIntervalMs := cleanupIntervalMs rl;
     cleanupTimer := cleanupTimer rl |}.

(** [new Date(ms)] *)
Record Date := { getTime : Z }.

Record ErrorStat := {
  stat_fingerprint : string;
  stat_count : Z;
  stat_firstSeen : Date;
  stat_lastSeen : Date
}.

Record Stats := {
  trackedErrors : nat;
  errors : list ErrorStat
}.

(** ** Host timers *)

(** The delay a timer runs with: Node replaces a delay below 1 ms or above
    2147483647 ms by 1 ms. *)
Definition timerDelay (ms : Z) : Z :=
  if (ms <? 1) || (2147483647 <? ms) then 1 else ms.

Definition setInterval (ms : Z) (h : Host) : Timeout * Host :=
  (nextHandle h,
   {| intervals := <[nextHandle h := timerDelay ms]> (intervals h);
      nextHandle := N.succ (nextHandle h) |}).

(** Clearing a handle that is not live does nothing. *)
Definition clearInterval (t : Timeout) (h : Host) : Host :=
  {| intervals := delete t (intervals h); nextHandle := nextHandle h |}.

(** ** The class [SentryRateLimiter] *)

Section Limiter.

(** [createHash("sha256").update(s).digest("hex")] *)
Variable sha256 : string → string.

(** [constructor(options = {})].  The products are those of the source as
    long as they stay within the integers that a JavaScript number holds
    exactly, that is up to 2^53 in size ([exactOptions] below); statements
    that read [windowMs] or [cleanupIntervalMs] as a product assume it. *)
Definition new (options : SentryRateLimiterOptions) (h : Host)
    : SentryRateLimiter * Host :=
  let maxReports := default 5 (opt_maxReportsPerWindow options) in
  let window := default 1 (opt_windowHours options) * 60 * 60 * 1000 in
  let interval := default 15 (opt_cleanupIntervalMinutes options) * 60 * 1000 in
  let '(timer, h') := setInterval interval h in
  ({| errorCounts := ∅;
      maxReportsPerWindow := maxReports;
      windowMs := window;
      cleanupIntervalMs := interval;
      cleanupTimer := Some timer |}, h').

(** The three [const]s of [getErrorFingerprint]. *)
Definition fp_message (event : ErrorEvent) : string :=
  JS.or_lit (JS.or (message event) (ex ← firstException event; value ex))
            "unknown".

Definition fp_type (event : ErrorEvent) : string :=
  JS.or_lit (ex ← firstException event; type ex) "Error".

(** [`${f.filename}:${f.lineno}`] *)
Definition frameSegment (f : StackFrame) : string :=
  JS.tmpl_string (filename f) ++ ":" ++ JS.tmpl_number (lineno f).

(** [event.exception?.values?.[0]?.stacktrace?.frames?.slice(-3)] *)
Definition retainedFrames (event : ErrorEvent) : option (list StackFrame) :=
  JS.slice_last 3 <$> (ex ← firstException event; st ← stacktrace ex; frames st).

Definition fp_stacktrace (event : ErrorEvent) : string :=
  JS.or_lit (JS.join "|" <$> (fmap frameSegment <$> retainedFrames event)) "".

(** The text handed to the digest. *)
Definition fingerprintInput (event : ErrorEvent) : string :=
  fp_type event ++ ":" ++ fp_message event ++ ":" ++ fp_stacktrace event.

Definition getErrorFingerprint (event : ErrorEvent) : string :=
  let fingerprint := fingerprintInput event in
  sha256 fingerprint.

Definition freshEntry (now : Z) : ErrorRateLimit :=
  {| count := 1; firstSeen := now; lastSeen := now |}.

Definition shouldReport (event : ErrorEvent) (now : Z) (rl : SentryRateLimiter)
    : bool * SentryRateLimiter :=
  let fingerprint := getErrorFingerprint event in
  match errorCounts rl !! fingerprint with
  | None =>
      (true, withErrorCounts rl (<[fingerprint := freshEntry now]> (errorCounts rl)))
  | Some existing =>
      let windowStart := now - windowMs rl in
      if firstSeen existing <? windowStart then
        (true, withErrorCounts rl (<[fingerprint := freshEntry now]> (errorCounts rl)))
      else if count existing >=? maxReportsPerWindow rl then
        (false,
         withErrorCounts rl
           (<[fingerprint := {| count := count existing;
                                firstSeen := firstSeen existing;
                                lastSeen := now |}]> (errorCounts rl)))
      else
        (true,
         withErrorCounts rl
           (<[fingerprint := {| count := count existing + 1;
                                firstSeen := firstSeen existing;
                                lastSeen := now |}]> (errorCounts rl)))
  end.

(** One turn of the [for ... of this.errorCounts.entries()] loop.  A turn
    deletes at most the key it visits, so the loop still meets every entry
    that was in the map when it started. *)
Definition cleanupVisit (cutoff : Z) (m : gmap string ErrorRateLimit)
    (entry : string * ErrorRateLimit) : gmap string ErrorRateLimit :=
  let '(fingerprint, data) := entry in
  if lastSeen data <? cutoff then delete fingerprint m else m.

Definition cleanup (now : Z) (rl : SentryRateLimiter) : SentryRateLimiter :=
  let cutoff := now - windowMs rl in
  withErrorCounts rl
    (foldl (cleanupVisit cutoff) (errorCounts rl) (map_to_list (errorCounts rl))).

(** The snapshot lists the entries in the order of [map_to_list]; a
    JavaScript [Map] lists them in insertion order, which no statement below
    depends on. *)
Definition getStats (rl : SentryRateLimiter) : Stats :=
  {| trackedErrors := size (errorCounts rl);
     errors :=
       map (λ '(fingerprint, data),
              {| stat_fingerprint := fingerprint;
                 stat_count := count data;
                 stat_firstSeen := {| getTime := firstSeen data |};
                 stat_lastSeen := {| getTime := lastSeen data |} |})
           (map_to_list (errorCounts rl)) |}.

Definition destroy (rl : SentryRateLimiter) (h : Host) : SentryRateLimiter * Host :=
  let h' :=
    match cleanupTimer rl with
    | Some timer => clearInterval timer h
    | None => h
    end in
  ({| errorCounts := ∅;
      maxReportsPerWindow := maxReportsPerWindow rl;
      windowMs := windowMs rl;
      cleanupIntervalMs := cleanupIntervalMs rl;
      cleanupTimer := None |}, h').

(** [createBeforeSend(rateLimiter)] applied to an event. *)
Definition createBeforeSend (event : ErrorEvent) (now : Z) (rl : SentryRateLimiter)
    : option ErrorEvent * SentryRateLimiter :=
  let '(ok, rl') := shouldReport event now rl in
  if negb ok then (None, rl') else (Some event, rl').

(** ** Runs of the public operations *)

(** Successive [shouldReport] calls, each with its own clock reading; the
    decisions are collected in call order. *)
Fixpoint reportAll (calls : list (ErrorEvent * Z)) (rl : SentryRateLimiter)
    : list bool * SentryRateLimiter :=
  match calls with
  | [] => ([], rl)
  | (event, now) :: rest =>
      let '(ok, rl1) := shouldReport event now rl in
      let '(oks, rl2) := reportAll rest rl1 in
      (ok :: oks, rl2)
  end.

(** What can happen to an instance: a caller invokes a public method, or the
    interval timer fires [cleanup]. *)
Inductive Call :=
| CallShouldReport (event : ErrorEvent)
| CallCleanup
| CallGetStats
| CallDestroy.

(** [getStats] only reads, so the instance it leaves behind is the one it
    was given. *)
Definition step (now : Z) (c : Call) (s : SentryRateLimiter * Host)
    : SentryRateLimiter * Host :=
  match c with
  | CallShouldReport event => ((shouldReport event now s.1).2, s.2)
  | CallCleanup => (cleanup now s.1, s.2)
  | CallGetStats => let _ := getStats s.1 in s
  | CallDestroy => destroy s.1 s.2
  end.

Definition run (trace : list (Z * Call)) (s : SentryRateLimiter * Host)
    : SentryRateLimiter * Host :=
  foldl (λ s '(now, c), step now c s) s trace.

(** [destroy] called [n] times in a row. *)
Definition destroyTimes (n : nat) (s : SentryRateLimiter * Host)
    : SentryRateLimiter * Host :=
  Nat.iter n (λ s, destroy s.1 s.2) s.

(** ** Predicates used in the statements *)

(** Clock readings that never go back, starting from [t]. *)
Fixpoint nonDecreasingFrom (t : Z) (ts : list Z) : bool :=
  match ts with
  | [] => true
  | t' :: rest => (t <=? t') && nonDecreasingFrom t' rest
  end.

Definition nonDecreasing (ts : list Z) : bool :=
  match ts with
  | [] => true
  | t :: rest => nonDecreasingFrom t rest
  end.

(** The two entry invariants of the data model. *)
Definition entryOk (e : ErrorRateLimit) : Prop :=
  1 ≤ count e ∧ firstSeen e ≤ lastSeen e.

(** The inductive strengthening: no entry was seen after the clock [t]. *)
Definition entryOkAt (t : Z) (e : ErrorRateLimit) : Prop :=
  entryOk e ∧ lastSeen e ≤ t.

(** The frames that reach the fingerprint (none when the path to [frames]
    is missing). *)
Definition retained (event : ErrorEvent) : list StackFrame :=
  default [] (retainedFrames event).

(** Stack depth, some frame's file or some frame's line differ. *)
Definition stackDiffers (e1 e2 : ErrorEvent) : Prop :=
  length (retained e1) ≠ length (retained e2)
  ∨ ∃ (i : nat) f1 f2,
      retained e1 !! i = Some f1 ∧ retained e2 !! i = Some f2
      ∧ (filename f1 ≠ filename f2 ∨ lineno f1 ≠ lineno f2).

(** The same, with a file name compared as it is printed in the segment. *)
Definition printedStackDiffers (e1 e2 : ErrorEvent) : Prop :=
  length (retained e1) ≠ length (retained e2)
  ∨ ∃ (i : nat) f1 f2,
      retained e1 !! i = Some f1 ∧ retained e2 !! i = Some f2
      ∧ (JS.tmpl_string (filename f1) ≠ JS.tmpl_string (filename f2)
         ∨ lineno f1 ≠ lineno f2).

(** Does the byte [c] occur in [s]? *)
Fixpoint hasChar (c : ascii) (s : string) : bool :=
  match s with
  | EmptyString => false
  | String a rest => if Ascii.eqb a c then true else hasChar c rest
  end.

(** No file name among the retained frames contains the frame separator. *)
Definition barFree (event : ErrorEvent) : Prop :=
  Forall (λ f, hasChar "|" (JS.tmpl_string (filename f)) = false) (retained event).

(** ** Sample data *)

(** A stand-in digest for running the model on examples.  Every statement
    below is proved for an arbitrary digest. *)
Definition plainDigest (s : string) : string := s.

Definition frame (file : string) (line : Z) : StackFrame :=
  {| filename := Some file; lineno := Some line |}.

Definition host0 : Host := {| intervals := ∅; nextHandle := 0%N |}.

(** [new SentryRateLimiter({ maxReportsPerWindow: 2, windowHours: 1 })] *)
Definition options2 : SentryRateLimiterOptions :=
  {| opt_maxReportsPerWindow := Some 2;
     opt_windowHours := Some 1;
     opt_cleanupIntervalMinutes := None |}.

Definition limiter2 : SentryRateLimiter := (new options2 host0).1.

Definition eventA : ErrorEvent :=
  eventWithFrames (Some "x is undefined") (Some "TypeError") None
    [frame "app.js" 10; frame "lib.js" 20].

(** [eventA] with another line number in its last frame. *)
Definition eventB : ErrorEvent :=
  eventWithFrames (Some "x is undefined") (Some "TypeError") None
    [frame "app.js" 10; frame "lib.js" 21].

(** Nothing but an empty message and an empty type. *)
Definition eventBlank : ErrorEvent :=
  eventWithFrames (Some "") (Some "") (Some "boom") [].

(** One frame whose file name holds a bar, against two plain frames. *)
Definition eventBarOne : ErrorEvent :=
  eventWithFrames (Some "m") (Some "T") None [frame "a:1|b" 2].

Definition eventBarTwo : ErrorEvent :=
  eventWithFrames (Some "m") (Some "T") None [frame "a" 1; frame "b" 2].

(** A frame without file name, against a frame named ["undefined"]. *)
Definition eventUnnamed : ErrorEvent :=
  eventWithFrames (Some "m") (Some "T") None
    [ {| filename := None; lineno := Some 7 |} ].

Definition eventNamedUndefined : ErrorEvent :=
  eventWithFrames (Some "m") (Some "T") None [frame "undefined" 7].

(** A colon that sits in the file name, against one in the message. *)
Definition eventColonFile : ErrorEvent :=
  eventWithFrames (Some "b") (Some "a") None [frame "c:d" 1].

Definition eventColonMessage : ErrorEvent :=
  eventWithFrames (Some "b:c") (Some "a") None [frame "d" 1].

(** ** Further sample shapes and projections of a run *)

(** An event whose exception list is [exs]. *)
Definition eventWithExceptions (m : option string) (exs : list Exception)
    : ErrorEvent :=
  {| message := m; exception := Some {| values := Some exs |} |}.

(** The calls of a run that fingerprint to [k]. *)
Definition callsFor (k : string) (calls : list (ErrorEvent * Z))
    : list (ErrorEvent * Z) :=
  filter (λ call, getErrorFingerprint call.1 = k) calls.

(** The decisions that the calls fingerprinting to [k] received, when
    [oks] lists the decisions of all [calls] in order. *)
Definition decisionsFor (k : string) (calls : list (ErrorEvent * Z))
    (oks : list bool) : list bool :=
  (filter (λ p, getErrorFingerprint p.1.1 = k) (zip calls oks)).*2.

(** The [beforeSend] hook applied to successive events. *)
Fixpoint sendAll (calls : list (ErrorEvent * Z)) (rl : SentryRateLimiter)
    : list (option ErrorEvent) * SentryRateLimiter :=
  match calls with
  | [] => ([], rl)
  | (event, now) :: rest =>
      let '(out, rl1) := createBeforeSend event now rl in
      let '(outs, rl2) := sendAll rest rl1 in
      (out :: outs, rl2)
  end.

(** The decisions of the [shouldReport] calls of a trace, in call order. *)
Fixpoint decisions (trace : list (Z * Call)) (s : SentryRateLimiter * Host)
    : list bool :=
  match trace with
  | [] => []
  | (now, c) :: rest =>
      match c with
      | CallShouldReport event =>
          (shouldReport event now s.1).1 :: decisions rest (step now c s)
      | _ => decisions rest (step now c s)
      end
  end.

Definition isSweep (c : Call) : bool :=
  match c with CallCleanup => true | _ => false end.

Definition isDestroy (c : Call) : bool :=
  match c with CallDestroy => true | _ => false end.

(** The trace with the timer's [cleanup] runs taken out. *)
Definition withoutSweeps (trace : list (Z * Call)) : list (Z * Call) :=
  filter (λ tc, isSweep tc.2 = false) trace.

(** The limiter that is swept ([ss]) against the one that is not ([s]), at
    clock [t]: same cap and window; at each key either the same entry, or
    none against one that went stale before [t]. *)
Definition sweptFrom (t : Z) (ss s : SentryRateLimiter * Host) : Prop :=
  maxReportsPerWindow ss.1 = maxReportsPerWindow s.1
  ∧ windowMs ss.1 = windowMs s.1
  ∧ map_Forall (λ _, entryOkAt t) (errorCounts s.1)
  ∧ ∀ k, errorCounts ss.1 !! k = errorCounts s.1 !! k
         ∨ (errorCounts ss.1 !! k = None
            ∧ ∃ ent, errorCounts s.1 !! k = Some ent
                     ∧ lastSeen ent < t - windowMs s.1).

(** The options whose products the constructor computes without rounding:
    every intermediate product is an integer of size at most 2^53. *)
Definition exactOptions (options : SentryRateLimiterOptions) : Prop :=
  Z.abs (default 1 (opt_windowHours options) * 60 * 60 * 1000) ≤ 2 ^ 53
  ∧ Z.abs (default 15 (opt_cleanupIntervalMinutes options) * 60 * 1000) ≤ 2 ^ 53.

(** ** Events as they arrive at run time *)

(** The TypeScript type is gone at run time.  The source guards every step
    down to [frames] with [?.], but reads [f.filename] of each retained frame
    unguarded; so the one malformation that it can meet there is an element
    of [frames] that is [null] or [undefined], written [None] here. *)
Record RawStacktrace := {
  raw_frames : option (list (option StackFrame))
}.

Record RawException := {
  raw_type : option string;
  raw_value : option string;
  raw_stacktrace : option RawStacktrace
}.

Record RawExceptionInfo := {
  raw_values : option (list RawException)
}.

Record RawEvent := {
  raw_message : option string;
  raw_exception : option RawExceptionInfo
}.

Definition rawFirstException (event : RawEvent) : option RawException :=
  info ← raw_exception event; vs ← raw_values info; head vs.

(** [event.exception?.values?.[0]?.stacktrace?.frames] *)
Definition rawFrames (event : RawEvent) : option (list (option StackFrame)) :=
  ex ← rawFirstException event; st ← raw_stacktrace ex; raw_frames st.

(** The callback of [.map]: reading a property of [null] or [undefined]
    throws a [TypeError], written [None]. *)
Definition frameSegmentRaw (f : option StackFrame) : option string :=
  frameSegment <$> f.

(** The [stacktrace] constant, or [None] when the callback throws. *)
Definition rawStacktrace (event : RawEvent) : option string :=
  match rawFrames event with
  | None => Some ""
  | Some fs =>
      segments ← mapM frameSegmentRaw (JS.slice_last 3 fs);
      Some (JS.or_lit (Some (JS.join "|" segments)) "")
  end.

(** [getErrorFingerprint] on a run-time event: [None] is a thrown
    [TypeError]. *)
Definition getErrorFingerprintRaw (event : RawEvent) : option string :=
  let message :=
    JS.or_lit (JS.or (raw_message event)
                 (ex ← rawFirstException event; raw_value ex)) "unknown" in
  let type := JS.or_lit (ex ← rawFirstException event; raw_type ex) "Error" in
  stacktrace ← rawStacktrace event;
  let fingerprint := type ++ ":" ++ message ++ ":" ++ stacktrace in
  Some (sha256 fingerprint).

(** An event of the declared shape, seen at run time. *)
Definition toRawStacktrace (st : Stacktrace) : RawStacktrace :=
  {| raw_frames := (λ fs : list StackFrame, Some <$> fs) <$> frames st |}.

Definition toRawException (ex : Exception) : RawException :=
  {| raw_type := type ex;
     raw_value := value ex;
     raw_stacktrace := toRawStacktrace <$> stacktrace ex |}.

Definition toRawInfo (info : ExceptionInfo) : RawExceptionInfo :=
  {| raw_values := (λ vs : list Exception, toRawException <$> vs) <$> values info |}.

Definition toRaw (event : ErrorEvent) : RawEvent :=
  {| raw_message := message event;
     raw_exception := toRawInfo <$> exception event |}.

(** [{ message: "x", exception: { values: [{ type: "TypeError",
    stacktrace: { frames: [null] } }] } }] *)
Definition eventNullFrame : RawEvent :=
  {| raw_message := Some "x";
     raw_exception :=
       Some {| raw_values :=
                 Some [ {| raw_type := Some "TypeError";
                           raw_value := None;
                           raw_stacktrace :=
                             Some {| raw_frames := Some [None] |} |} ] |} |}.

(** The first exception of an event, told from the records alone. *)
Definition hasFirst (e : ErrorEvent) (ex : Exception) : Prop :=
  ∃ info rest, exception e = Some info ∧ values info = Some (ex :: rest).

Definition noFirst (e : ErrorEvent) : Prop :=
  exception e = None
  ∨ ∃ info, exception e = Some info
            ∧ (values info = None ∨ values info = Some []).

(** No exception value, no exception type, no frame to read. *)
Definition valueMissing (e : ErrorEvent) : Prop :=
  noFirst e ∨ ∃ ex, hasFirst e ex ∧ value ex = None.

Definition typeMissing (e : ErrorEvent) : Prop :=
  noFirst e ∨ ∃ ex, hasFirst e ex ∧ type ex = None.

Definition framesMissing (e : ErrorEvent) : Prop :=
  noFirst e
  ∨ ∃ ex, hasFirst e ex
          ∧ (stacktrace ex = None
             ∨ ∃ st, stacktrace ex = Some st
                     ∧ (frames st = None ∨ frames st = Some [])).

(** A frame as the template literal prints it. *)
Definition printedFrame (f : StackFrame) : string :=
  match filename f with Some name => name | None => "undefined" end
  ++ ":"
  ++ match lineno f with
     | Some line => JS.numberToString line
     | None => "undefined"
     end.

(** ** Strings: separators and decimal numerals *)

#[local] Arguments Ascii.eqb : simpl never.

Lemma hasChar_app c a b : hasChar c (a ++ b) = hasChar c a || hasChar c b.
Proof.
  induction a as [|x a IH]; simpl; [done|].
  destruct (Ascii.eqb x c); [done | exact IH].
Qed.

Lemma hasChar_head c s : hasChar c (String c s) = true.
Proof. simpl. by rewrite Ascii.eqb_refl. Qed.

Lemma append_inv_head (s a b : string) : s ++ a = s ++ b → a = b.
Proof.
  induction s as [|x s IH]; simpl; [done|].
  intros [= H]. by apply IH.
Qed.

(** Cutting at the first occurrence of a separator. *)
Lemma split_first c a b x y :
  hasChar c a = false → hasChar c b = false →
  a ++ String c x = b ++ String c y → a = b ∧ x = y.
Proof.
  revert b. induction a as [|p a IH]; intros [|q b]; simpl.
  - intros _ _ [= ->]. done.
  - intros _ Hb [= <- _]. by rewrite Ascii.eqb_refl in Hb.
  - intros Ha _ [= -> _]. by rewrite Ascii.eqb_refl in Ha.
  - intros Ha Hb [= -> Heq].
    destruct (Ascii.eqb q c); [done|].
    destruct (IH b Ha Hb Heq) as [-> ->]. done.
Qed.

(** Cutting at the last occurrence of a separator. *)
Lemma split_last c a b x y :
  hasChar c x = false → hasChar c y = false →
  a ++ String c x = b ++ String c y → a = b ∧ x = y.
Proof.
  intros Hx Hy. revert b. induction a as [|p a IH]; intros [|q b]; simpl.
  - intros [= ->]. done.
  - intros [= <- ->].
    rewrite hasChar_app, hasChar_head, orb_true_r in Hx. done.
  - intros [= -> <-].
    rewrite hasChar_app, hasChar_head, orb_true_r in Hy. done.
  - intros [= -> Heq]. destruct (IH b Heq) as [-> ->]. done.
Qed.

Lemma join_cons sep s t rest :
  JS.join sep (s :: t :: rest) = s ++ sep ++ JS.join sep (t :: rest).
Proof. done. Qed.

(** [join] can be undone when no piece is empty or holds the separator. *)
Lemma join_inj c (l1 l2 : list string) :
  Forall (λ s, s ≠ "" ∧ hasChar c s = false) l1 →
  Forall (λ s, s ≠ "" ∧ hasChar c s = false) l2 →
  JS.join (String c "") l1 = JS.join (String c "") l2 → l1 = l2.
Proof.
  intros H1. revert l2.
  induction H1 as [|s1 r1 [Hne1 Hc1] _ IH]; intros l2 H2 Heq.
  - destruct H2 as [|s2 r2 [Hne2 _] _]; [done|].
    destruct r2; simpl in Heq; [by subst|].
    by destruct s2.
  - destruct H2 as [|s2 r2 [Hne2 Hc2] H2].
    { destruct r1; simpl in Heq; [by subst|]. by destruct s1. }
    destruct r1 as [|t1 r1], r2 as [|t2 r2].
    + simpl in Heq. by subst.
    + rewrite join_cons in Heq. simpl JS.join in Heq. subst s1.
      rewrite hasChar_app in Hc1. simpl in Hc1.
      rewrite Ascii.eqb_refl, orb_true_r in Hc1. done.
    + rewrite join_cons in Heq. simpl JS.join in Heq at 2. subst s2.
      rewrite hasChar_app in Hc2. simpl in Hc2.
      rewrite Ascii.eqb_refl, orb_true_r in Hc2. done.
    + rewrite !join_cons in Heq. simpl append in Heq.
      assert (s1 ++ String c (JS.join (String c "") (t1 :: r1))
              = s2 ++ String c (JS.join (String c "") (t2 :: r2))) as Heq'.
      { exact Heq. }
      destruct (split_first _ _ _ _ _ Hc1 Hc2 Heq') as [-> Htl].
      f_equal. by apply IH.
Qed.

Lemma hasChar_cons_false c a s :
  hasChar c (String a s) = false → Ascii.eqb a c = false ∧ hasChar c s = false.
Proof. simpl. by destruct (Ascii.eqb a c). Qed.

Lemma uint_digits c (u : Decimal.uint) :
  hasChar c "0123456789" = false →
  hasChar c (NilEmpty.string_of_uint u) = false.
Proof.
  intros Hc. repeat (apply hasChar_cons_false in Hc as [? Hc]).
  induction u as [|u IH|u IH|u IH|u IH|u IH|u IH|u IH|u IH|u IH|u IH];
    simpl; [done|..];
    match goal with
    | E : Ascii.eqb ?d c = false |- (if Ascii.eqb ?d c then _ else _) = _ =>
        by rewrite E
    end.
Qed.

Lemma numberToString_digits c n :
  hasChar c "-0123456789" = false → hasChar c (JS.numberToString n) = false.
Proof.
  intros Hc. apply hasChar_cons_false in Hc as [Hm Hc].
  unfold JS.numberToString.
  destruct (Z.to_int n) as [u|u]; simpl; rewrite ?Hm; by apply uint_digits.
Qed.

Lemma numberToString_inj n m :
  JS.numberToString n = JS.numberToString m → n = m.
Proof.
  unfold JS.numberToString. intros H.
  apply DecimalZ.to_int_inj.
  assert (Some (Z.to_int n) = Some (Z.to_int m)) as [= ->]; [|done].
  by rewrite <- !NilEmpty.isi, H.
Qed.

Lemma numberToString_defined n : JS.numberToString n ≠ "undefined".
Proof.
  unfold JS.numberToString.
  destruct (Z.to_int n) as [u|u]; simpl; [|done].
  by destruct u.
Qed.

Lemma tmpl_number_inj a b : JS.tmpl_number a = JS.tmpl_number b → a = b.
Proof.
  destruct a as [n|], b as [m|]; simpl; intros H.
  - f_equal. by apply numberToString_inj.
  - by apply numberToString_defined in H.
  - symmetry in H. by apply numberToString_defined in H.
  - done.
Qed.

Lemma tmpl_number_sepfree c o :
  hasChar c "-0123456789undefined" = false → hasChar c (JS.tmpl_number o) = false.
Proof.
  intros Hc. destruct o as [n|]; simpl JS.tmpl_number.
  - apply numberToString_digits.
    change "-0123456789undefined" with ("-0123456789" ++ "undefined") in Hc.
    rewrite hasChar_app in Hc. by apply orb_false_elim in Hc as [? _].
  - change "-0123456789undefined" with ("-0123456789" ++ "undefined") in Hc.
    rewrite hasChar_app in Hc. by apply orb_false_elim in Hc as [_ ?].
Qed.

(** ** The fingerprint text *)

Lemma or_lit_empty o : JS.or_lit o "" = default "" o.
Proof. destruct o as [s|]; simpl; [|done]. by destruct (String.eqb_spec s ""). Qed.

Lemma fp_stacktrace_join event :
  fp_stacktrace event = JS.join "|" (frameSegment <$> retained event).
Proof.
  unfold fp_stacktrace, retained. rewrite or_lit_empty.
  by destruct (retainedFrames event).
Qed.

Lemma frameSegment_nonempty f : frameSegment f ≠ "".
Proof.
  unfold frameSegment. destruct (JS.tmpl_string (filename f)); done.
Qed.

Lemma frameSegment_barFree f :
  hasChar "|" (JS.tmpl_string (filename f)) = false →
  hasChar "|" (frameSegment f) = false.
Proof.
  intros Hf. unfold frameSegment.
  rewrite hasChar_app, Hf. simpl.
  change (Ascii.eqb ":" "|") with false. cbv iota.
  by apply tmpl_number_sepfree.
Qed.

Lemma frameSegment_inj f1 f2 :
  frameSegment f1 = frameSegment f2 →
  JS.tmpl_string (filename f1) = JS.tmpl_string (filename f2)
  ∧ lineno f1 = lineno f2.
Proof.
  unfold frameSegment. intros H.
  apply split_last in H as [Hf Hl];
    [|by apply tmpl_number_sepfree..].
  split; [done|]. by apply tmpl_number_inj.
Qed.

Lemma fingerprintInput_same_head e1 e2 :
  fp_type e1 = fp_type e2 → fp_message e1 = fp_message e2 →
  fingerprintInput e1 = fingerprintInput e2 →
  fp_stacktrace e1 = fp_stacktrace e2.
Proof.
  unfold fingerprintInput. intros -> -> H.
  do 4 apply append_inv_head in H. exact H.
Qed.

Lemma segments_of_input e1 e2 :
  fp_type e1 = fp_type e2 → fp_message e1 = fp_message e2 →
  barFree e1 → barFree e2 →
  fingerprintInput e1 = fingerprintInput e2 →
  (frameSegment <$> retained e1) = (frameSegment <$> retained e2).
Proof.
  intros Ht Hm B1 B2 H.
  apply (fingerprintInput_same_head _ _ Ht Hm) in H.
  rewrite !fp_stacktrace_join in H.
  assert (∀ e, barFree e →
    Forall (λ s, s ≠ "" ∧ hasChar "|" s = false) (frameSegment <$> retained e))
    as Hall.
  { intros e B. apply Forall_fmap. eapply Forall_impl; [exact B|].
    intros f Hf. split; [apply frameSegment_nonempty | by apply frameSegment_barFree]. }
  eapply join_inj; [by apply Hall.. | exact H].
Qed.

Lemma fingerprint_of_segments e1 e2 :
  fp_type e1 = fp_type e2 → fp_message e1 = fp_message e2 →
  (frameSegment <$> retained e1) = (frameSegment <$> retained e2) →
  getErrorFingerprint e1 = getErrorFingerprint e2.
Proof.
  intros Ht Hm Hs. unfold getErrorFingerprint, fingerprintInput.
  by rewrite !fp_stacktrace_join, Ht, Hm, Hs.
Qed.

(** ** Fingerprinting: claims C3, C7, C9, C10 *)

(** C3 (as amended).  Events with the same derived type, the same derived
    message and the same printed last-three frames get the same fingerprint.
    In the other direction the guarantee is on the text handed to the digest:
    for two events with the same derived type and message, none of whose
    retained file names contains the bar character, a difference in the
    number of retained frames, in some frame's printed file name or in some
    frame's line number makes the two texts differ, and so the fingerprints
    differ unless the digest collides on these two texts. *)
Theorem fingerprint_by_parts (e1 e2 : ErrorEvent) :
  (fp_type e1 = fp_type e2 → fp_message e1 = fp_message e2 →
   (frameSegment <$> retained e1) = (frameSegment <$> retained e2) →
   getErrorFingerprint e1 = getErrorFingerprint e2)
  ∧ (fp_type e1 = fp_type e2 → fp_message e1 = fp_message e2 →
     barFree e1 → barFree e2 →
     printedStackDiffers e1 e2 →
     fingerprintInput e1 ≠ fingerprintInput e2
     ∧ ((sha256 (fingerprintInput e1) = sha256 (fingerprintInput e2) →
         fingerprintInput e1 = fingerprintInput e2) →
        getErrorFingerprint e1 ≠ getErrorFingerprint e2)).
Proof.
  split.
  - apply fingerprint_of_segments.
  - intros Ht Hm B1 B2 Hd.
    assert (fingerprintInput e1 ≠ fingerprintInput e2) as Hne;
      [|split; [exact Hne | intros Hfree Heq; by apply Hne, Hfree]].
    intros Heq.
    pose proof (segments_of_input _ _ Ht Hm B1 B2 Heq) as Hseg.
    destruct Hd as [Hlen | (i & f1 & f2 & H1 & H2 & Hd)].
    + apply Hlen. by rewrite <- (length_fmap frameSegment), Hseg, length_fmap.
    + assert (frameSegment f1 = frameSegment f2) as Hf.
      { assert ((frameSegment <$> retained e1) !! i = Some (frameSegment f1)) as G1
          by (by rewrite list_lookup_fmap, H1).
        assert ((frameSegment <$> retained e2) !! i = Some (frameSegment f2)) as G2
          by (by rewrite list_lookup_fmap, H2).
        rewrite Hseg in G1. congruence. }
      apply frameSegment_inj in Hf as [Hn Hl]. by destruct Hd.
Qed.

(** The typed and the run-time reading of an event. *)
Lemma firstException_hasFirst e ex : hasFirst e ex → firstException e = Some ex.
Proof. intros (info & rest & He & Hv). unfold firstException. by rewrite He; simpl; rewrite Hv. Qed.

Lemma firstException_noFirst e : noFirst e → firstException e = None.
Proof.
  unfold firstException. intros [He | (info & He & [Hv | Hv])]; rewrite He; simpl;
    [done | by rewrite Hv..].
Qed.

Lemma toRaw_first e :
  rawFirstException (toRaw e) = toRawException <$> firstException e.
Proof.
  unfold rawFirstException, firstException, toRaw. simpl.
  destruct (exception e) as [info|]; simpl; [|done].
  destruct (values info) as [vs|]; simpl; [|done]. by destruct vs.
Qed.

Lemma toRaw_frames e :
  rawFrames (toRaw e)
  = (λ fs : list StackFrame, Some <$> fs)
      <$> (ex ← firstException e; st ← stacktrace ex; frames st).
Proof.
  unfold rawFrames. rewrite toRaw_first.
  destruct (firstException e) as [ex|]; simpl; [|done].
  by destruct (stacktrace ex) as [st|].
Qed.

Lemma mapM_frameSegmentRaw_Some (l : list StackFrame) :
  mapM frameSegmentRaw (Some <$> l) = Some (frameSegment <$> l).
Proof.
  apply mapM_Some_2. induction l as [|f l IH]; constructor; done.
Qed.

Lemma rawStacktrace_typed e : rawStacktrace (toRaw e) = Some (fp_stacktrace e).
Proof.
  unfold rawStacktrace, fp_stacktrace, retainedFrames. rewrite toRaw_frames.
  destruct (ex ← firstException e; st ← stacktrace ex; frames st) as [fs|];
    simpl; [|done].
  unfold JS.slice_last. rewrite length_fmap, <- fmap_drop.
  by rewrite mapM_frameSegmentRaw_Some.
Qed.

Lemma getErrorFingerprintRaw_typed e :
  getErrorFingerprintRaw (toRaw e) = Some (getErrorFingerprint e).
Proof.
  unfold getErrorFingerprintRaw. rewrite rawStacktrace_typed, toRaw_first.
  unfold getErrorFingerprint, fingerprintInput, fp_message, fp_type. simpl.
  by destruct (firstException e).
Qed.

Lemma getErrorFingerprintRaw_throws e :
  getErrorFingerprintRaw e = None
  ↔ ∃ fs, rawFrames e = Some fs ∧ None ∈ JS.slice_last 3 fs.
Proof.
  unfold getErrorFingerprintRaw, rawStacktrace.
  destruct (rawFrames e) as [fs|]; simpl.
  - destruct (mapM frameSegmentRaw (JS.slice_last 3 fs)) as [segs|] eqn:Hm; simpl.
    + split; [done|]. intros (fs' & [= <-] & Hin).
      assert (mapM frameSegmentRaw (JS.slice_last 3 fs) = None) as Hnone; [|congruence].
      apply mapM_None, Exists_exists. by exists None.
    + split; [|done]. intros _. exists fs. split; [done|].
      apply mapM_None, Exists_exists in Hm as ([f|] & Hin & Hf); done.
  - split; [done|]. by intros (fs' & [=] & _).
Qed.

(** C7 (as amended).  On every event of the declared shape the fingerprint
    is defined; at run time it throws exactly when one of the last three
    frames of the first exception is [null] or [undefined].  On the declared
    shape a missing message gives way to the first exception's value and,
    that missing too, to ["unknown"]; a missing type gives way to ["Error"];
    missing or empty frames give the empty stack text. *)
Theorem fingerprint_sentinels :
  (∀ e : ErrorEvent,
     getErrorFingerprintRaw (toRaw e) = Some (getErrorFingerprint e))
  ∧ (∀ e : RawEvent,
       getErrorFingerprintRaw e = None
       ↔ ∃ fs, rawFrames e = Some fs ∧ None ∈ JS.slice_last 3 fs)
  ∧ (∀ e ex v,
       message e = None → hasFirst e ex → value ex = Some v → v ≠ "" →
       getErrorFingerprint e
       = sha256 (fp_type e ++ ":" ++ v ++ ":" ++ fp_stacktrace e))
  ∧ (∀ e,
       message e = None → valueMissing e →
       getErrorFingerprint e
       = sha256 (fp_type e ++ ":" ++ "unknown" ++ ":" ++ fp_stacktrace e))
  ∧ (∀ e,
       typeMissing e →
       getErrorFingerprint e
       = sha256 ("Error" ++ ":" ++ fp_message e ++ ":" ++ fp_stacktrace e))
  ∧ (∀ e,
       framesMissing e →
       getErrorFingerprint e
       = sha256 (fp_type e ++ ":" ++ fp_message e ++ ":" ++ ""))
  ∧ getErrorFingerprint {| message := None; exception := None |}
    = sha256 "Error:unknown:".
Proof.
  split; [exact getErrorFingerprintRaw_typed|].
  split; [exact getErrorFingerprintRaw_throws|].
  split_and!; [| | | |done].
  - intros e ex v Hm Hex Hv Hne.
    unfold getErrorFingerprint, fingerprintInput. do 3 f_equal.
    unfold fp_message, JS.or. rewrite Hm, (firstException_hasFirst _ _ Hex).
    simpl. rewrite Hv. simpl. by destruct (String.eqb_spec v "").
  - intros e Hm Hmiss.
    unfold getErrorFingerprint, fingerprintInput. do 3 f_equal.
    unfold fp_message, JS.or. rewrite Hm. simpl.
    destruct Hmiss as [Hno | (ex & Hex & Hv)].
    + by rewrite (firstException_noFirst _ Hno).
    + rewrite (firstException_hasFirst _ _ Hex). simpl. by rewrite Hv.
  - intros e Hmiss.
    unfold getErrorFingerprint, fingerprintInput. do 2 f_equal.
    unfold fp_type.
    destruct Hmiss as [Hno | (ex & Hex & Ht)].
    + by rewrite (firstException_noFirst _ Hno).
    + rewrite (firstException_hasFirst _ _ Hex). simpl. by rewrite Ht.
  - intros e Hmiss.
    unfold getErrorFingerprint, fingerprintInput. do 5 f_equal.
    unfold fp_stacktrace, retainedFrames.
    destruct Hmiss as [Hno | (ex & Hex & Hst)].
    + by rewrite (firstException_noFirst _ Hno).
    + rewrite (firstException_hasFirst _ _ Hex). simpl.
      destruct Hst as [Hs | (st & Hs & [Hf | Hf])]; rewrite Hs; simpl;
        [done | by rewrite Hf..].
Qed.

(** C9.  An empty message is treated as an absent one, and an empty
    exception type as an absent one. *)
Theorem empty_text_is_absent :
  (∀ exc,
     getErrorFingerprint {| message := Some ""; exception := exc |}
     = getErrorFingerprint {| message := None; exception := exc |})
  ∧ (∀ e, message e = Some "" →
       fp_message e
         = JS.or_lit (ex ← firstException e; value ex) "unknown")
  ∧ (∀ e, (ex ← firstException e; type ex) = Some "" → fp_type e = "Error").
Proof.
  split; [done|]. split.
  - intros e Hm. unfold fp_message, JS.or. by rewrite Hm.
  - intros e Ht. unfold fp_type. by rewrite Ht.
Qed.

Lemma frameSegment_printed f : frameSegment f = printedFrame f.
Proof. unfold frameSegment, printedFrame. by destruct (filename f), (lineno f). Qed.

(** C10.  In the text handed to the digest, each retained frame stands as
    [file:line] with the word [undefined] for a part that is missing, so a
    fully empty frame stands as [undefined:undefined]; fingerprinting such an
    event succeeds; and an event whose frame has no file name has the
    fingerprint of the event whose frame is named ["undefined"]. *)
Theorem missing_frame_parts_print_undefined :
  (∀ m t v fs,
     fingerprintInput (eventWithFrames m t v fs)
     = fp_type (eventWithFrames m t v fs) ++ ":"
       ++ fp_message (eventWithFrames m t v fs) ++ ":"
       ++ JS.join "|" (printedFrame <$> drop (length fs - 3) fs))
  ∧ (∀ msg ty v,
       msg ≠ "" → ty ≠ "" →
       fingerprintInput
         (eventWithFrames (Some msg) (Some ty) v
            [ {| filename := None; lineno := None |} ])
       = ty ++ ":" ++ msg ++ ":" ++ "undefined:undefined")
  ∧ (∀ m t v fs,
       getErrorFingerprintRaw (toRaw (eventWithFrames m t v fs))
       = Some (getErrorFingerprint (eventWithFrames m t v fs)))
  ∧ (∀ m t v l before after,
       getErrorFingerprint
         (eventWithFrames m t v
            (before ++ {| filename := None; lineno := l |} :: after))
       = getErrorFingerprint
           (eventWithFrames m t v
              (before ++ {| filename := Some "undefined"; lineno := l |} :: after))).
Proof.
  split_and!.
  - intros m t v fs. unfold fingerprintInput. do 4 f_equal.
    rewrite fp_stacktrace_join. apply (f_equal (JS.join "|")).
    unfold retained, retainedFrames, JS.slice_last. simpl.
    apply list_fmap_ext. intros _ f _. apply frameSegment_printed.
  - intros msg ty v Hmsg Hty. unfold fingerprintInput.
    unfold fp_type, fp_message, JS.or, JS.truthy. simpl.
    destruct (String.eqb_spec msg ""); [done|].
    destruct (String.eqb_spec ty ""); [done|]. simpl.
    by destruct (String.eqb_spec msg "").
  - intros m t v fs. apply getErrorFingerprintRaw_typed.
  - intros m t v l before after.
    apply fingerprint_of_segments; try done.
    unfold retained, retainedFrames, JS.slice_last. simpl.
    rewrite !length_app. simpl.
    rewrite !fmap_drop, !fmap_app. done.
Qed.

(** ** The four branches of [shouldReport] *)

Lemma shouldReport_fresh event now rl :
  errorCounts rl !! getErrorFingerprint event = None →
  shouldReport event now rl
  = (true, withErrorCounts rl
             (<[getErrorFingerprint event := freshEntry now]> (errorCounts rl))).
Proof. intros H. unfold shouldReport. by rewrite H. Qed.

Lemma shouldReport_expired event now rl ent :
  errorCounts rl !! getErrorFingerprint event = Some ent →
  firstSeen ent < now - windowMs rl →
  shouldReport event now rl
  = (true, withErrorCounts rl
             (<[getErrorFingerprint event := freshEntry now]> (errorCounts rl))).
Proof.
  intros H Hlt. unfold shouldReport. rewrite H. cbv zeta.
  by rewrite (proj2 (Z.ltb_lt _ _) Hlt).
Qed.

Lemma shouldReport_capped event now rl ent :
  errorCounts rl !! getErrorFingerprint event = Some ent →
  now - windowMs rl ≤ firstSeen ent →
  maxReportsPerWindow rl ≤ count ent →
  shouldReport event now rl
  = (false, withErrorCounts rl
              (<[getErrorFingerprint event :=
                   {| count := count ent; firstSeen := firstSeen ent;
                      lastSeen := now |}]> (errorCounts rl))).
Proof.
  intros H Hw Hc. unfold shouldReport. rewrite H. cbv zeta.
  rewrite (proj2 (Z.ltb_ge _ _) Hw).
  by rewrite Z.geb_leb, (proj2 (Z.leb_le _ _) Hc).
Qed.

Lemma shouldReport_counted event now rl ent :
  errorCounts rl !! getErrorFingerprint event = Some ent →
  now - windowMs rl ≤ firstSeen ent →
  count ent < maxReportsPerWindow rl →
  shouldReport event now rl
  = (true, withErrorCounts rl
             (<[getErrorFingerprint event :=
                  {| count := count ent + 1; firstSeen := firstSeen ent;
                     lastSeen := now |}]> (errorCounts rl))).
Proof.
  intros H Hw Hc. unfold shouldReport. rewrite H. cbv zeta.
  rewrite (proj2 (Z.ltb_ge _ _) Hw).
  by rewrite Z.geb_leb, (proj2 (Z.leb_gt _ _) Hc).
Qed.

(** ** Window tracking: claims C1, C2, C5 *)

(** Calls for a tracked key that all fall inside the window opened at
    [firstSeen]: the [i]-th of them is admitted exactly when the count it
    finds is below the cap. *)
Lemma reportAll_tracked k t0 rest :
  ∀ rl ent,
    errorCounts rl !! k = Some ent → firstSeen ent = t0 →
    Forall (λ call, getErrorFingerprint call.1 = k) rest →
    Forall (λ call, call.2 ≤ t0 + windowMs rl) rest →
    (reportAll rest rl).1
    = (λ i : nat, count ent + Z.of_nat i <? maxReportsPerWindow rl)
        <$> seq 0 (length rest).
Proof.
  induction rest as [|[event now] rest IH]; intros rl ent Hk Ht Hfp Hin; [done|].
  apply Forall_cons in Hfp as [Hfp1 Hfp]. apply Forall_cons in Hin as [Hin1 Hin].
  simpl in Hfp1, Hin1. subst k.
  assert (now - windowMs rl ≤ firstSeen ent) as Hw by lia.
  cbn [reportAll length seq fmap list_fmap].
  destruct (Z_lt_le_dec (count ent) (maxReportsPerWindow rl)) as [Hc|Hc].
  - rewrite (shouldReport_counted _ _ _ _ Hk Hw Hc).
    set (rl1 := withErrorCounts rl _).
    specialize (IH rl1 _ (lookup_insert_eq _ _ _) Ht Hfp Hin).
    destruct (reportAll rest rl1) as [oks rl2]. simpl in IH |- *.
    rewrite Z.add_0_r, (proj2 (Z.ltb_lt _ _) Hc). f_equal.
    rewrite IH, <- seq_shift, <- list_fmap_compose.
    apply list_fmap_ext. intros _ i _. simpl. f_equal. lia.
  - rewrite (shouldReport_capped _ _ _ _ Hk Hw Hc).
    set (rl1 := withErrorCounts rl _).
    specialize (IH rl1 _ (lookup_insert_eq _ _ _) Ht Hfp Hin).
    destruct (reportAll rest rl1) as [oks rl2]. simpl in IH |- *.
    rewrite Z.add_0_r, (proj2 (Z.ltb_ge _ _) Hc). f_equal.
    rewrite IH, <- seq_shift, <- list_fmap_compose.
    apply list_fmap_ext. intros _ i _. simpl.
    rewrite !(proj2 (Z.ltb_ge _ _)); [done|lia..].
Qed.

(** C1.  Cap enforcement.  The limiter has cap [N ≥ 1] and does not track the
    key [k]; the calls [(e0, t0) :: rest] all fingerprint to [k], and every
    later call comes no later than the end of the window opened at [t0].
    Then call number [i] (from 0) is admitted exactly when [i < N]. *)
Theorem cap_enforcement (rl : SentryRateLimiter) (k : string) (N : Z)
    (e0 : ErrorEvent) (t0 : Z) (rest : list (ErrorEvent * Z)) :
  maxReportsPerWindow rl = N → 1 ≤ N →
  errorCounts rl !! k = None →
  Forall (λ call, getErrorFingerprint call.1 = k) ((e0, t0) :: rest) →
  Forall (λ call, call.2 ≤ t0 + windowMs rl) rest →
  (reportAll ((e0, t0) :: rest) rl).1
  = (λ i : nat, Z.of_nat i <? N) <$> seq 0 (S (length rest)).
Proof.
  intros HN Hpos Hk Hfp Hin.
  apply Forall_cons in Hfp as [Hfp0 Hfp]. simpl in Hfp0. subst k.
  cbn [reportAll]. rewrite (shouldReport_fresh _ _ _ Hk).
  set (rl1 := withErrorCounts rl _).
  pose proof (reportAll_tracked (getErrorFingerprint e0) t0 rest rl1
                (freshEntry t0) (lookup_insert_eq _ _ _) eq_refl Hfp Hin) as Hrest.
  destruct (reportAll rest rl1) as [oks rl2]. simpl in Hrest |- *.
  f_equal; [symmetry; apply Z.ltb_lt; lia|].
  rewrite Hrest, <- seq_shift, <- list_fmap_compose.
  apply list_fmap_ext. intros _ i _. simpl. rewrite HN. f_equal. lia.
Qed.

(** C2.  Window reset.  When the tracked entry's [firstSeen] lies strictly
    before [now - windowMs], the call is admitted and the entry is replaced
    by a fresh one stamped [now].  While the window has not elapsed, a call
    leaves [firstSeen] where it was, whether it is admitted or dropped. *)
Theorem window_reset (event : ErrorEvent) (now : Z) (rl : SentryRateLimiter)
    (ent : ErrorRateLimit) :
  errorCounts rl !! getErrorFingerprint event = Some ent →
  (firstSeen ent < now - windowMs rl →
   shouldReport event now rl
   = (true,
      withErrorCounts rl
        (<[getErrorFingerprint event :=
             {| count := 1; firstSeen := now; lastSeen := now |}]>
           (errorCounts rl))))
  ∧ (now - windowMs rl ≤ firstSeen ent →
     firstSeen <$> (errorCounts (shouldReport event now rl).2
                      !! getErrorFingerprint event)
     = Some (firstSeen ent)).
Proof.
  intros Hk. split.
  - intros Hlt. by apply shouldReport_expired with ent.
  - intros Hw.
    destruct (Z_lt_le_dec (count ent) (maxReportsPerWindow rl)) as [Hc|Hc].
    + rewrite (shouldReport_counted _ _ _ _ Hk Hw Hc). simpl.
      by rewrite lookup_insert_eq.
    + rewrite (shouldReport_capped _ _ _ _ Hk Hw Hc). simpl.
      by rewrite lookup_insert_eq.
Qed.

(** C5.  A call that finds its entry inside the window and at or above the
    cap is dropped; it rewrites that entry's [lastSeen] to [now] and leaves
    its [count] and [firstSeen], every other entry, and the configuration
    as they were. *)
Theorem capped_call_frame (event : ErrorEvent) (now : Z)
    (rl : SentryRateLimiter) (ent : ErrorRateLimit) :
  errorCounts rl !! getErrorFingerprint event = Some ent →
  now - windowMs rl ≤ firstSeen ent →
  count ent >= maxReportsPerWindow rl →
  (shouldReport event now rl).1 = false
  ∧ errorCounts (shouldReport event now rl).2 !! getErrorFingerprint event
    = Some {| count := count ent; firstSeen := firstSeen ent; lastSeen := now |}
  ∧ (∀ k, k ≠ getErrorFingerprint event →
       errorCounts (shouldReport event now rl).2 !! k = errorCounts rl !! k)
  ∧ maxReportsPerWindow (shouldReport event now rl).2 = maxReportsPerWindow rl
  ∧ windowMs (shouldReport event now rl).2 = windowMs rl
  ∧ cleanupIntervalMs (shouldReport event now rl).2 = cleanupIntervalMs rl
  ∧ cleanupTimer (shouldReport event now rl).2 = cleanupTimer rl.
Proof.
  intros Hk Hw Hc. apply Z.ge_le in Hc.
  rewrite (shouldReport_capped _ _ _ _ Hk Hw Hc). simpl.
  repeat split; [by rewrite lookup_insert_eq|].
  intros k Hne. by rewrite lookup_insert_ne.
Qed.

(** ** The sweeper: claim C4 *)

(** The loop deletes a key exactly when it meets a stale pair for it. *)
Lemma cleanup_fold_lookup cutoff (l : list (string * ErrorRateLimit)) :
  ∀ (m : gmap string ErrorRateLimit) k,
    foldl (cleanupVisit cutoff) m l !! k
    = if decide (Exists (λ kd, kd.1 = k ∧ lastSeen kd.2 < cutoff) l)
      then None else m !! k.
Proof.
  induction l as [|[k0 d0] l IH]; intros m k; cbn [foldl].
  { rewrite decide_False; [done|]. by intros ?%Exists_nil. }
  rewrite IH. unfold cleanupVisit.
  destruct (decide (Exists _ l)) as [Hl|Hl].
  { rewrite decide_True; [done|]. apply Exists_cons. by right. }
  destruct (Z.ltb_spec (lastSeen d0) cutoff) as [Hs|Hs].
  - destruct (decide (k0 = k)) as [->|Hne].
    + rewrite lookup_delete_eq, decide_True; [done|]. apply Exists_cons. by left.
    + rewrite lookup_delete_ne by done.
      rewrite decide_False; [done|].
      rewrite Exists_cons. simpl. intros [[? _]|?]; done.
  - rewrite decide_False; [done|].
    rewrite Exists_cons. simpl. intros [[_ ?]|?]; [lia|done].
Qed.

Lemma cleanup_lookup now rl k :
  errorCounts (cleanup now rl) !! k
  = d ← errorCounts rl !! k;
    if lastSeen d <? now - windowMs rl then None else Some d.
Proof.
  unfold cleanup. simpl. rewrite cleanup_fold_lookup.
  destruct (decide (Exists _ _)) as [He|He].
  - apply Exists_exists in He as ([k' d'] & Hin & Hk' & Hs). simpl in *. subst k'.
    apply elem_of_map_to_list in Hin. rewrite Hin. simpl.
    by rewrite (proj2 (Z.ltb_lt _ _) Hs).
  - destruct (errorCounts rl !! k) as [d|] eqn:Hk; [simpl|done].
    destruct (Z.ltb_spec (lastSeen d) (now - windowMs rl)) as [Hs|Hs]; [|done].
    exfalso. apply He, Exists_exists. exists (k, d).
    split; [by apply elem_of_map_to_list|done].
Qed.

Lemma cleanup_filter now rl :
  errorCounts (cleanup now rl)
  = filter (λ kd, now - windowMs rl ≤ lastSeen kd.2) (errorCounts rl).
Proof.
  apply map_eq. intros k. rewrite cleanup_lookup, map_lookup_filter.
  destruct (errorCounts rl !! k) as [d|]; [simpl|done].
  destruct (Z.ltb_spec (lastSeen d) (now - windowMs rl)).
  - by rewrite option_guard_False by lia.
  - by rewrite option_guard_True.
Qed.

(** C4.  A sweep at time [now] deletes every entry whose [lastSeen] is
    strictly below [now - windowMs], keeps every other entry as it is, adds
    nothing, and [getStats().trackedErrors] then counts the kept entries. *)
Theorem cleanup_removes_stale (now : Z) (rl : SentryRateLimiter) :
  (∀ k d, errorCounts rl !! k = Some d → lastSeen d < now - windowMs rl →
     errorCounts (cleanup now rl) !! k = None)
  ∧ (∀ k d, errorCounts rl !! k = Some d → now - windowMs rl ≤ lastSeen d →
       errorCounts (cleanup now rl) !! k = Some d)
  ∧ (∀ k, errorCounts rl !! k = None → errorCounts (cleanup now rl) !! k = None)
  ∧ trackedErrors (getStats (cleanup now rl))
    = length (filter (λ kd, now - windowMs rl ≤ lastSeen kd.2)
                (map_to_list (errorCounts rl))).
Proof.
  repeat split.
  - intros k d Hk Hs. rewrite cleanup_lookup, Hk. simpl.
    by rewrite (proj2 (Z.ltb_lt _ _) Hs).
  - intros k d Hk Hs. rewrite cleanup_lookup, Hk. simpl.
    by rewrite (proj2 (Z.ltb_ge _ _) Hs).
  - intros k Hk. by rewrite cleanup_lookup, Hk.
  - unfold getStats. cbn [trackedErrors].
    rewrite cleanup_filter, map_filter_alt.
    apply map_size_list_to_map.
    apply (sublist_NoDup _ (map_to_list (errorCounts rl)).*1).
    + apply NoDup_fst_map_to_list.
    + apply fmap_sublist, sublist_filter.
Qed.

(** ** Entry invariants: claim C6 *)

Lemma entryOkAt_mono t t' e : t ≤ t' → entryOkAt t e → entryOkAt t' e.
Proof. unfold entryOkAt. intros ? [? ?]. split; [done|lia]. Qed.

Lemma shouldReport_keeps_ok t event rl :
  map_Forall (λ _, entryOkAt t) (errorCounts rl) →
  map_Forall (λ _, entryOkAt t) (errorCounts (shouldReport event t rl).2).
Proof.
  intros Hinv. unfold shouldReport.
  assert (entryOkAt t (freshEntry t)) as Hfresh.
  { unfold entryOkAt, entryOk. simpl. lia. }
  destruct (errorCounts rl !! getErrorFingerprint event) as [ent|] eqn:Hk;
    cbv zeta.
  - pose proof (map_Forall_lookup_1 _ _ _ _ Hinv Hk) as [[Hc Hfl] Hl].
    destruct (firstSeen ent <? t - windowMs rl);
      [by apply map_Forall_insert_2|].
    destruct (count ent >=? maxReportsPerWindow rl);
      (apply map_Forall_insert_2; [|done]);
      unfold entryOkAt, entryOk; simpl; lia.
  - by apply map_Forall_insert_2.
Qed.

Lemma cleanup_keeps_ok t now rl :
  map_Forall (λ _, entryOkAt t) (errorCounts rl) →
  map_Forall (λ _, entryOkAt t) (errorCounts (cleanup now rl)).
Proof.
  intros Hinv k d Hk. rewrite cleanup_lookup in Hk.
  destruct (errorCounts rl !! k) as [d'|] eqn:Hk'; [simpl in Hk|done].
  destruct (lastSeen d' <? now - windowMs rl); [done|].
  injection Hk as <-. by apply (Hinv k).
Qed.

Lemma step_keeps_ok t t' c s :
  t ≤ t' →
  map_Forall (λ _, entryOkAt t) (errorCounts s.1) →
  map_Forall (λ _, entryOkAt t') (errorCounts (step t' c s).1).
Proof.
  intros Hle Hinv.
  assert (map_Forall (λ _, entryOkAt t') (errorCounts s.1)) as Hinv'.
  { eapply map_Forall_impl; [exact Hinv|].
    intros ? e. by apply entryOkAt_mono. }
  destruct c; simpl.
  - by apply shouldReport_keeps_ok.
  - by apply cleanup_keeps_ok.
  - done.
  - apply map_Forall_empty.
Qed.

Lemma run_keeps_ok trace :
  ∀ t s,
    map_Forall (λ _, entryOkAt t) (errorCounts s.1) →
    nonDecreasingFrom t trace.*1 = true →
    map_Forall (λ _, entryOk) (errorCounts (run trace s).1).
Proof.
  induction trace as [|[t' c] trace IH]; intros t s Hinv Hnd.
  - eapply map_Forall_impl; [exact Hinv|]. by intros ? e [? _].
  - simpl in Hnd. apply andb_true_iff in Hnd as [Hle Hnd].
    apply Z.leb_le in Hle.
    apply (IH t' (step t' c s)); [|done]. by apply step_keeps_ok with t.
Qed.

Lemma run_from_new_ok options h trace :
  nonDecreasing trace.*1 = true →
  map_Forall (λ _, entryOk) (errorCounts (run trace (new options h)).1).
Proof.
  destruct trace as [|[t0 c] trace]; intros Hnd.
  - apply map_Forall_empty.
  - apply run_keeps_ok with t0; [apply map_Forall_empty|].
    simpl in Hnd |- *. by rewrite Z.leb_refl.
Qed.

(** C6.  From a freshly constructed limiter, after any sequence of
    [shouldReport], [cleanup], [getStats] and [destroy] calls whose clock
    readings never go back, every tracked entry has [count ≥ 1] and
    [firstSeen ≤ lastSeen]; and one more operation of any kind, at a clock
    reading that again does not go back, keeps it so. *)
Theorem entries_stay_well_formed (options : SentryRateLimiterOptions)
    (h : Host) (trace : list (Z * Call)) :
  nonDecreasing trace.*1 = true →
  map_Forall (λ _, entryOk) (errorCounts (run trace (new options h)).1)
  ∧ ∀ (t : Z) (c : Call),
      nonDecreasing (trace ++ [(t, c)])%list.*1 = true →
      map_Forall (λ _, entryOk)
        (errorCounts (step t c (run trace (new options h))).1).
Proof.
  intros Hnd. split; [by apply run_from_new_ok|].
  intros t c Hnd'.
  pose proof (run_from_new_ok options h _ Hnd') as H.
  unfold run in H |- *. by rewrite foldl_app in H.
Qed.

(** ** Teardown: claim C8 *)

Lemma destroy_twice rl h :
  destroy (destroy rl h).1 (destroy rl h).2 = destroy rl h.
Proof. done. Qed.

Lemma destroyTimes_S n rl h : destroyTimes (S n) (rl, h) = destroy rl h.
Proof.
  induction n as [|n IH]; [done|].
  change (destroyTimes (S (S n)) (rl, h))
    with (destroy (destroyTimes (S n) (rl, h)).1 (destroyTimes (S n) (rl, h)).2).
  rewrite IH. apply destroy_twice.
Qed.

(** C8.  [destroy] is total, and after one or more calls in a row the state
    is that left by the first call: the map is empty, so [getStats] reports
    no tracked error, the timer handle is gone, and a further call changes
    nothing, neither in the instance nor in the host's timers. *)
Theorem destroy_idempotent (rl : SentryRateLimiter) (h : Host) (n : nat) :
  destroyTimes (S n) (rl, h) = destroy rl h
  ∧ trackedErrors (getStats (destroyTimes (S n) (rl, h)).1) = 0%nat
  ∧ errors (getStats (destroyTimes (S n) (rl, h)).1) = []
  ∧ cleanupTimer (destroyTimes (S n) (rl, h)).1 = None
  ∧ destroy (destroyTimes (S n) (rl, h)).1 (destroyTimes (S n) (rl, h)).2
    = destroyTimes (S n) (rl, h).
Proof.
  rewrite destroyTimes_S. repeat split.
Qed.

(** ** More on [shouldReport] *)

(** Whatever the branch, the call writes one entry at its own key. *)
Lemma shouldReport_shape event now rl :
  ∃ ent,
    (shouldReport event now rl).2
    = withErrorCounts rl (<[getErrorFingerprint event := ent]> (errorCounts rl)).
Proof.
  unfold shouldReport.
  destruct (errorCounts rl !! getErrorFingerprint event) as [ent|]; cbv zeta;
    [|by eexists].
  destruct (firstSeen ent <? now - windowMs rl); [by eexists|].
  destruct (count ent >=? maxReportsPerWindow rl); by eexists.
Qed.

(** X1.  First admit: a call for a key that is not tracked is admitted, its
    entry starts at count 1 with both stamps at [now], and the number of
    tracked errors grows by one. *)
Theorem first_admit (event : ErrorEvent) (now : Z) (rl : SentryRateLimiter) :
  errorCounts rl !! getErrorFingerprint event = None →
  (shouldReport event now rl).1 = true
  ∧ errorCounts (shouldReport event now rl).2 !! getErrorFingerprint event
    = Some {| count := 1; firstSeen := now; lastSeen := now |}
  ∧ trackedErrors (getStats (shouldReport event now rl).2)
    = S (trackedErrors (getStats rl)).
Proof.
  intros Hk. rewrite (shouldReport_fresh _ _ _ Hk). simpl.
  split; [done|]. split; [by rewrite lookup_insert_eq|].
  by apply map_size_insert_None.
Qed.

(** X2.  A call never touches another key, never removes a key, and leaves
    the configuration and the timer handle alone: afterwards the tracked
    keys are the old ones plus the call's own, and a call for a key that was
    already tracked leaves the number of tracked errors unchanged. *)
Theorem shouldReport_own_key_only (event : ErrorEvent) (now : Z)
    (rl : SentryRateLimiter) :
  (∀ k, k ≠ getErrorFingerprint event →
     errorCounts (shouldReport event now rl).2 !! k = errorCounts rl !! k)
  ∧ dom (errorCounts (shouldReport event now rl).2)
    = {[getErrorFingerprint event]} ∪ dom (errorCounts rl)
  ∧ (is_Some (errorCounts rl !! getErrorFingerprint event) →
     trackedErrors (getStats (shouldReport event now rl).2)
     = trackedErrors (getStats rl))
  ∧ maxReportsPerWindow (shouldReport event now rl).2 = maxReportsPerWindow rl
  ∧ windowMs (shouldReport event now rl).2 = windowMs rl
  ∧ cleanupIntervalMs (shouldReport event now rl).2 = cleanupIntervalMs rl
  ∧ cleanupTimer (shouldReport event now rl).2 = cleanupTimer rl.
Proof.
  destruct (shouldReport_shape event now rl) as [ent ->]. simpl.
  repeat split.
  - intros k Hne. by rewrite lookup_insert_ne.
  - apply dom_insert_L.
  - intros Hk. by apply map_size_insert_Some.
Qed.

(** X3.  The decision table: a call is dropped exactly when its key is
    tracked, the entry's [firstSeen] is not below [now - windowMs], and the
    entry's count has reached the cap.  In particular a call at exactly
    [firstSeen + windowMs] is still inside the window. *)
Theorem shouldReport_drop_iff (event : ErrorEvent) (now : Z)
    (rl : SentryRateLimiter) :
  (shouldReport event now rl).1 = false
  ↔ ∃ ent,
      errorCounts rl !! getErrorFingerprint event = Some ent
      ∧ now - windowMs rl ≤ firstSeen ent
      ∧ maxReportsPerWindow rl ≤ count ent.
Proof.
  split.
  - destruct (errorCounts rl !! getErrorFingerprint event) as [ent|] eqn:Hk.
    + intros Hdrop. exists ent. split; [done|].
      destruct (Z_lt_le_dec (firstSeen ent) (now - windowMs rl)) as [Hw|Hw].
      { by rewrite (shouldReport_expired _ _ _ _ Hk Hw) in Hdrop. }
      split; [done|].
      destruct (Z_lt_le_dec (count ent) (maxReportsPerWindow rl)) as [Hc|Hc];
        [|done].
      by rewrite (shouldReport_counted _ _ _ _ Hk Hw Hc) in Hdrop.
    + by rewrite (shouldReport_fresh _ _ _ Hk).
  - intros (ent & Hk & Hw & Hc). by rewrite (shouldReport_capped _ _ _ _ Hk Hw Hc).
Qed.

(** ** The cap beyond the first window *)

(** A window opened by the call [(e0, t0)], whether the key was unknown or
    its old window had run out. *)
Lemma reportAll_new_window rl k e0 t0 rest :
  (errorCounts rl !! k = None
   ∨ ∃ ent, errorCounts rl !! k = Some ent ∧ firstSeen ent < t0 - windowMs rl) →
  Forall (λ call, getErrorFingerprint call.1 = k) ((e0, t0) :: rest) →
  Forall (λ call, call.2 ≤ t0 + windowMs rl) rest →
  (reportAll ((e0, t0) :: rest) rl).1
  = (λ i : nat, Z.of_nat i <? Z.max 1 (maxReportsPerWindow rl))
      <$> seq 0 (S (length rest)).
Proof.
  intros Hstart Hfp Hin.
  apply Forall_cons in Hfp as [Hfp0 Hfp]. simpl in Hfp0. subst k.
  cbn [reportAll].
  assert (shouldReport e0 t0 rl
          = (true, withErrorCounts rl
                     (<[getErrorFingerprint e0 := freshEntry t0]> (errorCounts rl))))
    as ->.
  { destruct Hstart as [Hk | (ent & Hk & Hold)].
    - by apply shouldReport_fresh.
    - by apply shouldReport_expired with ent. }
  set (rl1 := withErrorCounts rl _).
  pose proof (reportAll_tracked (getErrorFingerprint e0) t0 rest rl1
                (freshEntry t0) (lookup_insert_eq _ _ _) eq_refl Hfp Hin) as Hrest.
  destruct (reportAll rest rl1) as [oks rl2]. simpl in Hrest |- *.
  f_equal; [symmetry; apply Z.ltb_lt; lia|].
  rewrite Hrest, <- seq_shift, <- list_fmap_compose.
  apply list_fmap_ext. intros _ i _. simpl.
  destruct (Z.ltb_spec (1 + Z.of_nat i) (maxReportsPerWindow rl));
    symmetry; [apply Z.ltb_lt | apply Z.ltb_ge]; lia.
Qed.

(** X4.  The cap applies anew after a reset.  When the tracked entry's window
    has run out at [t0], the call at [t0] opens a new window, and of the calls
    for that key up to [t0 + windowMs] exactly the first [N] are admitted
    ([N ≥ 1] the cap). *)
Theorem cap_after_reset (rl : SentryRateLimiter) (ent : ErrorRateLimit)
    (e0 : ErrorEvent) (t0 : Z) (rest : list (ErrorEvent * Z)) :
  1 ≤ maxReportsPerWindow rl →
  errorCounts rl !! getErrorFingerprint e0 = Some ent →
  firstSeen ent < t0 - windowMs rl →
  Forall (λ call, getErrorFingerprint call.1 = getErrorFingerprint e0) rest →
  Forall (λ call, call.2 ≤ t0 + windowMs rl) rest →
  (reportAll ((e0, t0) :: rest) rl).1
  = (λ i : nat, Z.of_nat i <? maxReportsPerWindow rl) <$> seq 0 (S (length rest)).
Proof.
  intros HN Hk Hold Hfp Hin.
  rewrite (reportAll_new_window rl (getErrorFingerprint e0) e0 t0 rest);
    [|right; by exists ent|by constructor|done].
  by rewrite Z.max_r.
Qed.

(** X5.  A cap of zero or less is not enforced on the first sighting: the call
    that opens a window is admitted all the same, and every later call for the
    key inside that window is dropped. *)
Theorem nonpositive_cap_admits_one (rl : SentryRateLimiter) (e0 : ErrorEvent)
    (t0 : Z) (rest : list (ErrorEvent * Z)) :
  maxReportsPerWindow rl ≤ 0 →
  errorCounts rl !! getErrorFingerprint e0 = None →
  Forall (λ call, getErrorFingerprint call.1 = getErrorFingerprint e0) rest →
  Forall (λ call, call.2 ≤ t0 + windowMs rl) rest →
  (reportAll ((e0, t0) :: rest) rl).1 = true :: replicate (length rest) false.
Proof.
  intros HN Hk Hfp Hin.
  rewrite (reportAll_new_window rl (getErrorFingerprint e0) e0 t0 rest);
    [|by left|by constructor|done].
  rewrite Z.max_l by lia. cbn [seq fmap list_fmap]. f_equal.
  assert (∀ n start, (1 ≤ start)%nat →
            (λ i : nat, Z.of_nat i <? 1) <$> seq start n = replicate n false)
    as Hlate.
  { induction n as [|n IH]; intros start Hs; [done|].
    cbn [seq fmap list_fmap replicate]. rewrite IH by lia.
    f_equal. apply Z.ltb_ge. lia. }
  by apply Hlate.
Qed.

(** ** What no run changes *)

Lemma step_config now c s :
  maxReportsPerWindow (step now c s).1 = maxReportsPerWindow s.1
  ∧ windowMs (step now c s).1 = windowMs s.1
  ∧ cleanupIntervalMs (step now c s).1 = cleanupIntervalMs s.1.
Proof.
  destruct c; simpl; try done.
  by destruct (shouldReport_shape event now s.1) as [ent ->].
Qed.

Lemma run_config trace :
  ∀ s,
    maxReportsPerWindow (run trace s).1 = maxReportsPerWindow s.1
    ∧ windowMs (run trace s).1 = windowMs s.1
    ∧ cleanupIntervalMs (run trace s).1 = cleanupIntervalMs s.1.
Proof.
  induction trace as [|[now c] trace IH]; intros s; [done|].
  change (run ((now, c) :: trace) s) with (run trace (step now c s)).
  destruct (IH (step now c s)) as (-> & -> & ->). apply step_config.
Qed.

(** X6.  The configuration is fixed at construction.  For options whose
    products the constructor computes without rounding, after any sequence of
    operations the cap, the window length and the sweep period are the ones
    computed from the options, with 5 reports, 1 hour and 15 minutes standing
    in for an option that was not given (and only for that: a given 0 is
    kept). *)
Theorem configuration_is_fixed (options : SentryRateLimiterOptions) (h : Host)
    (trace : list (Z * Call)) :
  exactOptions options →
  maxReportsPerWindow (run trace (new options h)).1
  = default 5 (opt_maxReportsPerWindow options)
  ∧ windowMs (run trace (new options h)).1
    = default 1 (opt_windowHours options) * 60 * 60 * 1000
  ∧ cleanupIntervalMs (run trace (new options h)).1
    = default 15 (opt_cleanupIntervalMinutes options) * 60 * 1000.
Proof.
  intros _. by destruct (run_config trace (new options h)) as (-> & -> & ->).
Qed.

Lemma shouldReport_count_bound event now rl :
  map_Forall (λ _ e, 1 ≤ count e ≤ Z.max 1 (maxReportsPerWindow rl))
    (errorCounts rl) →
  map_Forall (λ _ e, 1 ≤ count e ≤ Z.max 1 (maxReportsPerWindow rl))
    (errorCounts (shouldReport event now rl).2).
Proof.
  intros Hinv. unfold shouldReport.
  destruct (errorCounts rl !! getErrorFingerprint event) as [ent|] eqn:Hk;
    cbv zeta.
  - pose proof (map_Forall_lookup_1 _ _ _ _ Hinv Hk) as Hc. simpl in Hc.
    destruct (firstSeen ent <? now - windowMs rl);
      [apply map_Forall_insert_2; [simpl; lia | done]|].
    destruct (Z.geb_spec (count ent) (maxReportsPerWindow rl));
      (apply map_Forall_insert_2; [simpl; lia | done]).
  - apply map_Forall_insert_2; [simpl; lia | done].
Qed.

Lemma step_count_bound now c s :
  map_Forall (λ _ e, 1 ≤ count e ≤ Z.max 1 (maxReportsPerWindow s.1))
    (errorCounts s.1) →
  map_Forall (λ _ e, 1 ≤ count e ≤ Z.max 1 (maxReportsPerWindow s.1))
    (errorCounts (step now c s).1).
Proof.
  intros Hinv. destruct c; cbn [step fst].
  - by apply shouldReport_count_bound.
  - intros k d Hk. rewrite cleanup_lookup in Hk.
    destruct (errorCounts s.1 !! k) as [d'|] eqn:Hk'; [simpl in Hk|done].
    destruct (lastSeen d' <? now - windowMs s.1); [done|].
    injection Hk as <-. by apply (Hinv k).
  - done.
  - apply map_Forall_empty.
Qed.

Lemma run_count_bound trace :
  ∀ s,
    map_Forall (λ _ e, 1 ≤ count e ≤ Z.max 1 (maxReportsPerWindow s.1))
      (errorCounts s.1) →
    map_Forall (λ _ e, 1 ≤ count e ≤ Z.max 1 (maxReportsPerWindow s.1))
      (errorCounts (run trace s).1).
Proof.
  induction trace as [|[now c] trace IH]; intros s Hinv; [done|].
  destruct (step_config now c s) as (Hmax & _).
  change (run ((now, c) :: trace) s) with (run trace (step now c s)).
  rewrite <- Hmax. apply IH. rewrite Hmax. by apply step_count_bound.
Qed.

(** X7.  Counts stay between 1 and the cap.  After any sequence of operations
    on a fresh limiter, in any order and at any clock readings, every tracked
    entry has [1 ≤ count ≤ max 1 cap]: the counter is never pushed past the
    cap (past 1 when the cap is below 1). *)
Theorem count_within_cap (options : SentryRateLimiterOptions) (h : Host)
    (trace : list (Z * Call)) :
  map_Forall
    (λ _ e, 1 ≤ count e ≤ Z.max 1 (default 5 (opt_maxReportsPerWindow options)))
    (errorCounts (run trace (new options h)).1).
Proof.
  apply (run_count_bound trace (new options h)). apply map_Forall_empty.
Qed.

(** ** More on the sweeper, the snapshot, the hook and the timer *)

Lemma cleanup_as_filter now rl :
  cleanup now rl
  = withErrorCounts rl
      (filter (λ kd, now - windowMs rl ≤ lastSeen kd.2) (errorCounts rl)).
Proof.
  pose proof (cleanup_filter now rl) as H. unfold cleanup in H |- *.
  simpl in H. by rewrite H.
Qed.

(** X8.  A sweep with an earlier (or the same) clock reading after a sweep
    removes nothing more; in particular sweeping twice at the same time is
    the same as sweeping once.  A sweep never adds to the number of tracked
    errors. *)
Theorem cleanup_absorbs_earlier (t1 t2 : Z) (rl : SentryRateLimiter) :
  t1 ≤ t2 →
  cleanup t1 (cleanup t2 rl) = cleanup t2 rl
  ∧ (trackedErrors (getStats (cleanup t2 rl)) ≤ trackedErrors (getStats rl))%nat.
Proof.
  intros Hle. split.
  - rewrite (cleanup_as_filter t1), (cleanup_as_filter t2).
    unfold withErrorCounts. simpl. f_equal.
    apply map_filter_filter_r. intros k d _. simpl. lia.
  - rewrite cleanup_as_filter. unfold getStats. simpl trackedErrors.
    apply map_size_filter.
Qed.

(** X9.  The snapshot has one record per tracked entry: its length is
    [trackedErrors], no fingerprint is listed twice, and a record is listed
    exactly when the map holds that entry under that fingerprint. *)
Theorem getStats_lists_entries (rl : SentryRateLimiter) :
  length (errors (getStats rl)) = trackedErrors (getStats rl)
  ∧ NoDup (stat_fingerprint <$> errors (getStats rl))
  ∧ ∀ k c f l,
      {| stat_fingerprint := k; stat_count := c;
         stat_firstSeen := {| getTime := f |};
         stat_lastSeen := {| getTime := l |} |} ∈ errors (getStats rl)
      ↔ errorCounts rl !! k = Some {| count := c; firstSeen := f; lastSeen := l |}.
Proof.
  unfold getStats. cbn [errors trackedErrors]. split; [|split].
  - by rewrite length_map, length_map_to_list.
  - change (map ?g ?l) with (g <$> l).
    rewrite <- list_fmap_compose.
    erewrite list_fmap_ext; [apply NoDup_fst_map_to_list|].
    by intros _ [k d] _.
  - intros k c f l. rewrite list_elem_of_In, in_map_iff. split.
    + intros ([k' [c' f' l']] & [= -> -> -> ->] & Hin).
      by apply list_elem_of_In, elem_of_map_to_list in Hin.
    + intros Hk. exists (k, {| count := c; firstSeen := f; lastSeen := l |}).
      split; [done|]. by apply list_elem_of_In, elem_of_map_to_list.
Qed.

Lemma reportAll_cons event now rest rl :
  reportAll ((event, now) :: rest) rl
  = ((shouldReport event now rl).1 :: (reportAll rest (shouldReport event now rl).2).1,
     (reportAll rest (shouldReport event now rl).2).2).
Proof.
  cbn [reportAll]. destruct (shouldReport event now rl) as [ok rl1].
  cbn [fst snd]. by destruct (reportAll rest rl1).
Qed.

(** X10.  The [beforeSend] hook is [shouldReport] and nothing else: over any
    sequence of events it hands back the very event where [shouldReport]
    admits and [null] where it drops, and it leaves the limiter in the state
    that the [shouldReport] calls alone would leave. *)
Theorem createBeforeSend_follows_shouldReport (calls : list (ErrorEvent * Z))
    (rl : SentryRateLimiter) :
  (sendAll calls rl).1
  = zip_with (λ call (ok : bool), if ok then Some call.1 else None)
      calls (reportAll calls rl).1
  ∧ (sendAll calls rl).2 = (reportAll calls rl).2.
Proof.
  revert rl. induction calls as [|[event now] rest IH]; intros rl; [done|].
  rewrite reportAll_cons. cbn [sendAll]. unfold createBeforeSend.
  destruct (shouldReport event now rl) as [ok rl1]. cbn [fst snd].
  destruct (IH rl1) as [IH1 IH2].
  destruct ok; cbn [negb]; destruct (sendAll rest rl1) as [outs rl2];
    simpl in IH1, IH2 |- *; by rewrite IH1, IH2.
Qed.

(** The timer handle and the host's timers along a run: until [destroy] they
    are as the constructor left them, afterwards the handle is gone and its
    timer cleared. *)
Lemma run_timer options h trace :
  let start := new options h in
  let s := run trace start in
  (cleanupTimer s.1 = Some (nextHandle h) ∧ s.2 = start.2)
  ∨ (cleanupTimer s.1 = None ∧ s.2 = clearInterval (nextHandle h) start.2).
Proof.
  intros start.
  assert (∀ s,
    (cleanupTimer s.1 = Some (nextHandle h) ∧ s.2 = start.2)
    ∨ (cleanupTimer s.1 = None ∧ s.2 = clearInterval (nextHandle h) start.2) →
    (cleanupTimer (run trace s).1 = Some (nextHandle h) ∧ (run trace s).2 = start.2)
    ∨ (cleanupTimer (run trace s).1 = None
       ∧ (run trace s).2 = clearInterval (nextHandle h) start.2)) as Hrun.
  { induction trace as [|[now c] trace IH]; intros s Hs; [done|].
    change (run ((now, c) :: trace) s) with (run trace (step now c s)).
    apply IH. destruct c; cbn [step fst snd]; try done.
    - by destruct (shouldReport_shape event now s.1) as [ent ->].
    - right. unfold destroy. cbn [fst snd].
      destruct Hs as [[-> ->] | [-> ->]]; done. }
  apply Hrun. by left.
Qed.

(** X11.  The constructor starts the sweeper and only [destroy] stops it: as
    long as a run holds no [destroy], the instance keeps the handle it got
    from [setInterval], and the host keeps a timer under that handle.  The
    timer runs with the sweep period when that lies between 1 and 2147483647
    milliseconds, and with 1 millisecond otherwise. *)
Theorem sweeper_runs_until_destroy (options : SentryRateLimiterOptions)
    (h : Host) (trace : list (Z * Call)) :
  Forall (λ tc, isDestroy tc.2 = false) trace →
  cleanupTimer (run trace (new options h)).1 = Some (nextHandle h)
  ∧ (1 ≤ default 15 (opt_cleanupIntervalMinutes options) * 60 * 1000
       ≤ 2147483647 →
     intervals (run trace (new options h)).2 !! nextHandle h
     = Some (default 15 (opt_cleanupIntervalMinutes options) * 60 * 1000))
  ∧ (default 15 (opt_cleanupIntervalMinutes options) * 60 * 1000 < 1
     ∨ 2147483647 < default 15 (opt_cleanupIntervalMinutes options) * 60 * 1000 →
     intervals (run trace (new options h)).2 !! nextHandle h = Some 1).
Proof.
  intros Hnd.
  assert (∀ s, cleanupTimer (run trace s).1 = cleanupTimer s.1
               ∧ (run trace s).2 = s.2) as Hkeep.
  { induction Hnd as [|[now c] trace Hc _ IH]; intros s; [done|].
    change (run ((now, c) :: trace) s) with (run trace (step now c s)).
    destruct (IH (step now c s)) as [-> ->].
    destruct c; cbn [step fst snd]; try done.
    by destruct (shouldReport_shape event now s.1) as [ent ->]. }
  destruct (Hkeep (new options h)) as [-> ->].
  split; [done|]. cbn [new setInterval snd intervals]. rewrite lookup_insert_eq.
  unfold timerDelay. split.
  - intros [Hlo Hhi].
    by rewrite (proj2 (Z.ltb_ge _ _) Hlo), (proj2 (Z.ltb_ge _ _) Hhi).
  - intros [Hlo | Hhi].
    + by rewrite (proj2 (Z.ltb_lt _ _) Hlo).
    + rewrite (proj2 (Z.ltb_lt _ _) Hhi). by rewrite orb_true_r.
Qed.

(** X12.  [destroy] stops the sweeper whatever came before: after any run
    that ends in [destroy] the instance holds no handle, the host has no
    timer under the handle the constructor was given, and every other timer
    of the host is as it was before the instance was constructed. *)
Theorem destroy_cancels_sweeper (options : SentryRateLimiterOptions)
    (h : Host) (trace : list (Z * Call)) (t : Z) :
  cleanupTimer (run (trace ++ [(t, CallDestroy)])%list (new options h)).1 = None
  ∧ intervals (run (trace ++ [(t, CallDestroy)])%list (new options h)).2
      !! nextHandle h = None
  ∧ ∀ t', t' ≠ nextHandle h →
      intervals (run (trace ++ [(t, CallDestroy)])%list (new options h)).2 !! t'
      = intervals h !! t'.
Proof.
  unfold run. rewrite foldl_app. fold (run trace (new options h)).
  cbn [foldl step]. unfold destroy. cbn [fst snd].
  destruct (run_timer options h trace) as [[-> ->] | [-> ->]]; simpl;
    (split; [done|]); (split; [by rewrite ?lookup_delete_eq|]);
    intros t' Hne; by rewrite ?lookup_delete_ne, lookup_insert_ne.
Qed.

(** X13.  [destroy] forgets every count but does not switch the limiter off:
    the next call for any event is admitted. *)
Theorem destroy_forgets_counts (rl : SentryRateLimiter) (h : Host)
    (event : ErrorEvent) (now : Z) :
  (shouldReport event now (destroy rl h).1).1 = true
  ∧ trackedErrors (getStats (shouldReport event now (destroy rl h).1).2) = 1%nat.
Proof.
  rewrite shouldReport_fresh by done. simpl. split; [done|].
  by rewrite map_size_insert_None, map_size_empty.
Qed.

(** ** Decisions depend on one key, and not on the sweeper *)

(** A call reads the map at its own key only: two limiters that agree there
    and in their cap and window give the same decision and write the same
    entry. *)
Lemma shouldReport_local event now rl1 rl2 :
  errorCounts rl1 !! getErrorFingerprint event
  = errorCounts rl2 !! getErrorFingerprint event →
  maxReportsPerWindow rl1 = maxReportsPerWindow rl2 →
  windowMs rl1 = windowMs rl2 →
  ∃ ok ent,
    shouldReport event now rl1
    = (ok, withErrorCounts rl1
             (<[getErrorFingerprint event := ent]> (errorCounts rl1)))
    ∧ shouldReport event now rl2
      = (ok, withErrorCounts rl2
               (<[getErrorFingerprint event := ent]> (errorCounts rl2))).
Proof.
  intros Hk Hmax Hw. unfold shouldReport. rewrite Hk, Hmax, Hw.
  destruct (errorCounts rl2 !! getErrorFingerprint event) as [ent|]; cbv zeta;
    [|by eexists _, _].
  destruct (firstSeen ent <? now - windowMs rl2); [by eexists _, _|].
  destruct (count ent >=? maxReportsPerWindow rl2); by eexists _, _.
Qed.

Lemma reportAll_one_key k calls :
  ∀ rl1 rl2,
    errorCounts rl1 !! k = errorCounts rl2 !! k →
    maxReportsPerWindow rl1 = maxReportsPerWindow rl2 →
    windowMs rl1 = windowMs rl2 →
    decisionsFor k calls (reportAll calls rl1).1
    = (reportAll (callsFor k calls) rl2).1.
Proof.
  induction calls as [|[event now] rest IH]; intros rl1 rl2 Hk Hmax Hw; [done|].
  rewrite reportAll_cons. unfold decisionsFor, callsFor in *.
  cbn [fst zip zip_with]. rewrite !filter_cons. cbn [fst].
  destruct (decide (getErrorFingerprint event = k)) as [<-|Hne].
  - rewrite reportAll_cons. cbn [fst fmap list_fmap snd].
    destruct (shouldReport_local event now rl1 rl2 Hk Hmax Hw)
      as (ok & ent & -> & ->).
    cbn [fst snd]. f_equal. apply IH; [|done..].
    simpl. by rewrite !lookup_insert_eq.
  - destruct (shouldReport_shape event now rl1) as [ent ->].
    apply IH; [|done..]. simpl. by rewrite lookup_insert_ne.
Qed.

(** X14.  Keys are tracked independently.  In any sequence of calls, the
    decisions given to the calls that fingerprint to [k] are the decisions
    those calls would get if all the other calls were left out. *)
Theorem keys_are_independent (k : string) (calls : list (ErrorEvent * Z))
    (rl : SentryRateLimiter) :
  decisionsFor k calls (reportAll calls rl).1
  = (reportAll (callsFor k calls) rl).1.
Proof. by apply reportAll_one_key. Qed.

Lemma sweptFrom_mono t t' ss s : t ≤ t' → sweptFrom t ss s → sweptFrom t' ss s.
Proof.
  intros Hle (Hmax & Hw & Hok & Hk). unfold sweptFrom. split_and!; [done..| |].
  - eapply map_Forall_impl; [exact Hok|]. intros ? e. by apply entryOkAt_mono.
  - intros k. destruct (Hk k) as [?|(? & ent & ? & ?)]; [by left|].
    right. split; [done|]. exists ent. split; [done|lia].
Qed.

Lemma sweptFrom_report t event ss s :
  sweptFrom t ss s →
  (shouldReport event t ss.1).1 = (shouldReport event t s.1).1
  ∧ sweptFrom t (step t (CallShouldReport event) ss)
      (step t (CallShouldReport event) s).
Proof.
  intros (Hmax & Hw & Hok & Hk).
  assert (∃ ok ent,
    shouldReport event t ss.1
    = (ok, withErrorCounts ss.1
             (<[getErrorFingerprint event := ent]> (errorCounts ss.1)))
    ∧ shouldReport event t s.1
      = (ok, withErrorCounts s.1
               (<[getErrorFingerprint event := ent]> (errorCounts s.1))))
    as (ok & ent & Hss & Hs).
  { destruct (Hk (getErrorFingerprint event)) as [Heq|(Hnone & old & Hold & Hstale)].
    - by apply shouldReport_local.
    - exists true, (freshEntry t). split; [by apply shouldReport_fresh|].
      apply shouldReport_expired with old; [done|].
      destruct (map_Forall_lookup_1 _ _ _ _ Hok Hold) as [[_ ?] _]. lia. }
  split; [by rewrite Hss, Hs|].
  pose proof (step_keeps_ok t t (CallShouldReport event) s (Z.le_refl t) Hok)
    as Hok'.
  unfold sweptFrom. cbn [step fst snd] in Hok' |- *.
  rewrite Hss, Hs in *. cbn [fst snd] in *.
  split_and!; [done..|].
  intros k. destruct (decide (k = getErrorFingerprint event)) as [->|Hne].
  - left. simpl. by rewrite !lookup_insert_eq.
  - simpl. rewrite !lookup_insert_ne by done. apply Hk.
Qed.

Lemma sweptFrom_sweep t ss s :
  sweptFrom t ss s → sweptFrom t (step t CallCleanup ss) s.
Proof.
  intros (Hmax & Hw & Hok & Hk). unfold sweptFrom. cbn [step fst snd].
  split_and!; [done..|].
  intros k. rewrite cleanup_lookup, Hw.
  destruct (Hk k) as [Heq|(Hnone & old & Hold & Hstale)].
  - rewrite Heq. destruct (errorCounts s.1 !! k) as [d|] eqn:Hd; [simpl|by left].
    destruct (Z.ltb_spec (lastSeen d) (t - windowMs s.1)); [|by left].
    right. split; [done|]. by exists d.
  - rewrite Hnone. right. split; [done|]. by exists old.
Qed.

Lemma decisions_swept trace :
  ∀ t ss s,
    sweptFrom t ss s →
    nonDecreasingFrom t trace.*1 = true →
    decisions trace ss = decisions (withoutSweeps trace) s.
Proof.
  induction trace as [|[t' c] trace IH]; intros t ss s Hsim Hnd; [done|].
  simpl in Hnd. apply andb_true_iff in Hnd as [Hle Hnd]. apply Z.leb_le in Hle.
  apply (sweptFrom_mono _ _ _ _ Hle) in Hsim.
  unfold withoutSweeps in *. rewrite filter_cons. cbn [snd].
  destruct c; cbn [isSweep decisions].
  - rewrite decide_True by done. cbn [decisions].
    destruct (sweptFrom_report t' event ss s Hsim) as [-> Hsim'].
    f_equal. by apply (IH t').
  - rewrite decide_False by done.
    apply (IH t'); [|done]. by apply sweptFrom_sweep.
  - rewrite decide_True by done. cbn [decisions]. by apply (IH t').
  - rewrite decide_True by done. cbn [decisions].
    apply (IH t'); [|done].
    destruct Hsim as (Hmax & Hw & _ & _).
    unfold sweptFrom. split_and!; [done..|apply map_Forall_empty|by left].
Qed.

(** X15.  The sweeper is invisible to decisions.  On a fresh limiter, when
    the clock readings of a run never go back, every [shouldReport] call gets
    the decision it would get in the same run with all the timer's [cleanup]
    runs left out. *)
Theorem sweeps_do_not_change_decisions (options : SentryRateLimiterOptions)
    (h : Host) (trace : list (Z * Call)) :
  nonDecreasing trace.*1 = true →
  decisions trace (new options h)
  = decisions (withoutSweeps trace) (new options h).
Proof.
  destruct trace as [|[t0 c] trace]; intros Hnd; [done|].
  apply decisions_swept with t0.
  - unfold sweptFrom. split_and!; [done..|apply map_Forall_empty|by left].
  - simpl in Hnd |- *. by rewrite Z.leb_refl.
Qed.

(** ** What the fingerprint reads and what it does not *)

(** X16.  Only the last three frames reach the fingerprint: frames older than
    those change nothing, so two stacks with the same last three frames share
    a key however they differ further up. *)
Theorem fingerprint_keeps_last_three (m t v : option string)
    (older last3 : list StackFrame) :
  length last3 = 3%nat →
  retained (eventWithFrames m t v (older ++ last3)) = last3
  ∧ getErrorFingerprint (eventWithFrames m t v (older ++ last3))
    = getErrorFingerprint (eventWithFrames m t v last3).
Proof.
  intros Hlen.
  assert (retained (eventWithFrames m t v (older ++ last3)) = last3) as Hr.
  { unfold retained, retainedFrames, JS.slice_last. simpl.
    rewrite length_app, Hlen.
    replace (length older + 3 - 3)%nat with (length older) by lia.
    by rewrite drop_app_length. }
  split; [done|].
  apply fingerprint_of_segments; [done..|].
  rewrite Hr. unfold retained, retainedFrames, JS.slice_last. simpl.
  by rewrite Hlen.
Qed.

(** X17.  Only the first exception is read, and its value only when the
    event has no message of its own: exceptions after the first change
    nothing, and under a non-empty message the exception's value changes
    nothing. *)
Theorem fingerprint_reads_first_exception (m : option string) (ex : Exception)
    (others : list Exception) (msg : string) (t v1 v2 : option string)
    (fs : list StackFrame) :
  getErrorFingerprint (eventWithExceptions m (ex :: others))
  = getErrorFingerprint (eventWithExceptions m [ex])
  ∧ (msg ≠ "" →
     getErrorFingerprint (eventWithFrames (Some msg) t v1 fs)
     = getErrorFingerprint (eventWithFrames (Some msg) t v2 fs)).
Proof.
  split; [done|]. intros Hmsg.
  apply fingerprint_of_segments; [done| |done].
  unfold fp_message, JS.or, JS.truthy. simpl.
  by destruct (String.eqb_spec msg "").
Qed.

(** X18.  Type and message are told apart as long as neither holds a colon:
    two events whose derived types and messages are colon-free and differ in
    type or in message hand different texts to the digest. *)
Theorem colon_free_parts_are_separated (e1 e2 : ErrorEvent) :
  hasChar ":" (fp_type e1) = false → hasChar ":" (fp_type e2) = false →
  hasChar ":" (fp_message e1) = false → hasChar ":" (fp_message e2) = false →
  fp_type e1 ≠ fp_type e2 ∨ fp_message e1 ≠ fp_message e2 →
  fingerprintInput e1 ≠ fingerprintInput e2.
Proof.
  intros Ht1 Ht2 Hm1 Hm2 Hd Heq. unfold fingerprintInput in Heq.
  change (fp_type e1 ++ String ":" (fp_message e1 ++ String ":" (fp_stacktrace e1))
          = fp_type e2 ++ String ":" (fp_message e2 ++ String ":" (fp_stacktrace e2)))
    in Heq.
  apply split_first in Heq as [HT Heq]; [|done..].
  apply split_first in Heq as [HM _]; [|done..].
  by destruct Hd.
Qed.

End Limiter.

(** ** The statements at sample inputs *)

(** C3 as stated fails: each pair below differs in its retained frames (in
    depth, in a file name, in a file name) and yet has one fingerprint, for
    every digest. *)
Lemma fingerprint_collisions :
  (stackDiffers eventBarOne eventBarTwo
   ∧ ∀ sha256, getErrorFingerprint sha256 eventBarOne
               = getErrorFingerprint sha256 eventBarTwo)
  ∧ (stackDiffers eventUnnamed eventNamedUndefined
     ∧ ∀ sha256, getErrorFingerprint sha256 eventUnnamed
                 = getErrorFingerprint sha256 eventNamedUndefined)
  ∧ (stackDiffers eventColonFile eventColonMessage
     ∧ ∀ sha256, getErrorFingerprint sha256 eventColonFile
                 = getErrorFingerprint sha256 eventColonMessage).
Proof.
  repeat split.
  - left. simpl. lia.
  - right. exists 0%nat, {| filename := None; lineno := Some 7 |}, (frame "undefined" 7).
    repeat split. left. discriminate.
  - right. exists 0%nat, (frame "c:d" 1), (frame "d" 1).
    repeat split. left. discriminate.
Qed.

Lemma fingerprint_by_parts_witness :
  getErrorFingerprint plainDigest eventUnnamed
  = getErrorFingerprint plainDigest eventNamedUndefined
  ∧ (barFree eventA ∧ barFree eventB ∧ printedStackDiffers eventA eventB)
  ∧ fingerprintInput eventA ≠ fingerprintInput eventB
  ∧ getErrorFingerprint plainDigest eventA ≠ getErrorFingerprint plainDigest eventB.
Proof.
  assert (barFree eventA ∧ barFree eventB ∧ printedStackDiffers eventA eventB)
    as Hyp.
  { split; [|split].
    - repeat constructor.
    - repeat constructor.
    - right. exists 1%nat, (frame "lib.js" 20), (frame "lib.js" 21).
      repeat split. right. discriminate. }
  split; [|split; [exact Hyp|]].
  - apply (proj1 (fingerprint_by_parts plainDigest eventUnnamed eventNamedUndefined));
      reflexivity.
  - destruct Hyp as (B1 & B2 & Hd).
    destruct (proj2 (fingerprint_by_parts plainDigest eventA eventB)
                eq_refl eq_refl B1 B2 Hd) as [Hne Hkey].
    split; [exact Hne | exact (Hkey (λ H, H))].
Defined.

(** C7 as stated fails: an event whose only frame is [null] makes the
    fingerprint throw, for every digest. *)
Lemma fingerprint_throws_on_null_frame :
  rawFrames eventNullFrame = Some [None]
  ∧ ∀ sha256, getErrorFingerprintRaw sha256 eventNullFrame = None.
Proof. split; [reflexivity|]. intros sha256. reflexivity. Qed.

Lemma fingerprint_sentinels_witness :
  getErrorFingerprintRaw plainDigest (toRaw eventA)
  = Some "TypeError:x is undefined:app.js:10|lib.js:20"
  ∧ getErrorFingerprintRaw plainDigest eventNullFrame = None
  ∧ getErrorFingerprint plainDigest
      (eventWithFrames None None (Some "boom") []) = "Error:boom:"
  ∧ getErrorFingerprint plainDigest (eventWithFrames None None None [])
    = "Error:unknown:".
Proof.
  destruct (fingerprint_sentinels plainDigest)
    as (Htyped & Hthrows & Hvalue & Hunknown & _).
  split; [exact (Htyped eventA)|].
  split.
  { apply (proj2 (Hthrows eventNullFrame)). exists [None].
    split; [reflexivity|]. vm_compute. constructor. }
  split.
  - apply (Hvalue (eventWithFrames None None (Some "boom") [])
             {| type := None; value := Some "boom";
                stacktrace := Some {| frames := Some [] |} |} "boom").
    + reflexivity.
    + by eexists _, _.
    + reflexivity.
    + discriminate.
  - apply (Hunknown (eventWithFrames None None None [])).
    + reflexivity.
    + right. eexists. split; [by eexists _, _|reflexivity].
Defined.

Lemma missing_frame_parts_print_undefined_witness :
  fingerprintInput
    (eventWithFrames (Some "m") (Some "T") None
       [ {| filename := None; lineno := None |} ])
  = "T:m:undefined:undefined".
Proof.
  apply (proj1 (proj2 (missing_frame_parts_print_undefined plainDigest))
           "m" "T" None); discriminate.
Defined.

Lemma empty_text_is_absent_witness :
  message eventBlank = Some ""
  ∧ fp_message eventBlank = "boom"
  ∧ fp_type eventBlank = "Error".
Proof.
  destruct (empty_text_is_absent plainDigest) as (_ & Hm & Ht).
  split; [reflexivity|].
  split; [exact (Hm eventBlank eq_refl) | exact (Ht eventBlank eq_refl)].
Defined.

Lemma cap_enforcement_witness :
  (reportAll plainDigest
     [(eventA, 0); (eventA, 1000); (eventA, 3600000); (eventA, 2000)] limiter2).1
  = [true; true; false; false].
Proof.
  apply (cap_enforcement plainDigest limiter2
           (getErrorFingerprint plainDigest eventA) 2 eventA 0
           [(eventA, 1000); (eventA, 3600000); (eventA, 2000)]).
  - reflexivity.
  - lia.
  - reflexivity.
  - repeat constructor.
  - repeat constructor; vm_compute; discriminate.
Defined.

Lemma window_reset_witness :
  (shouldReport plainDigest eventA 3600001
     (shouldReport plainDigest eventA 0 limiter2).2).1 = true
  ∧ firstSeen <$>
      (errorCounts
         (shouldReport plainDigest eventA 3600000
            (shouldReport plainDigest eventA 0 limiter2).2).2
       !! getErrorFingerprint plainDigest eventA)
    = Some 0.
Proof.
  destruct (window_reset plainDigest eventA 3600001
              (shouldReport plainDigest eventA 0 limiter2).2
              (freshEntry 0) eq_refl) as [Hreset _].
  destruct (window_reset plainDigest eventA 3600000
              (shouldReport plainDigest eventA 0 limiter2).2
              (freshEntry 0) eq_refl) as [_ Hkeep].
  split.
  - rewrite Hreset; [reflexivity | vm_compute; reflexivity].
  - apply Hkeep. vm_compute. discriminate.
Defined.

Lemma capped_call_frame_witness :
  (shouldReport plainDigest eventA 5
     (reportAll plainDigest [(eventA, 0); (eventA, 1)] limiter2).2).1 = false
  ∧ errorCounts
      (shouldReport plainDigest eventA 5
         (reportAll plainDigest [(eventA, 0); (eventA, 1)] limiter2).2).2
    !! getErrorFingerprint plainDigest eventA
    = Some {| count := 2; firstSeen := 0; lastSeen := 5 |}.
Proof.
  destruct (capped_call_frame plainDigest eventA 5
              (reportAll plainDigest [(eventA, 0); (eventA, 1)] limiter2).2
              {| count := 2; firstSeen := 0; lastSeen := 1 |})
    as (Hdrop & Hentry & _).
  - reflexivity.
  - vm_compute. discriminate.
  - vm_compute. discriminate.
  - split; [exact Hdrop | exact Hentry].
Defined.

Lemma cleanup_removes_stale_witness :
  errorCounts
    (cleanup 4000000
       (reportAll plainDigest [(eventA, 0); (eventB, 3000000)] limiter2).2)
  !! getErrorFingerprint plainDigest eventA = None
  ∧ errorCounts
      (cleanup 4000000
         (reportAll plainDigest [(eventA, 0); (eventB, 3000000)] limiter2).2)
    !! getErrorFingerprint plainDigest eventB = Some (freshEntry 3000000)
  ∧ trackedErrors
      (getStats
         (cleanup 4000000
            (reportAll plainDigest [(eventA, 0); (eventB, 3000000)] limiter2).2))
    = 1%nat.
Proof.
  destruct (cleanup_removes_stale 4000000
              (reportAll plainDigest [(eventA, 0); (eventB, 3000000)] limiter2).2)
    as (Hstale & Hkept & _ & Hsize).
  split; [|split].
  - apply (Hstale _ (freshEntry 0)); [reflexivity | vm_compute; reflexivity].
  - apply Hkept; [reflexivity | vm_compute; discriminate].
  - rewrite Hsize. reflexivity.
Defined.

Lemma entries_stay_well_formed_witness :
  map_Forall (λ _, entryOk)
    (errorCounts
       (run plainDigest
          [(0, CallShouldReport eventA); (5, CallGetStats);
           (5, CallShouldReport eventA); (10, CallShouldReport eventB);
           (3600020, CallCleanup); (3600020, CallShouldReport eventA);
           (3600030, CallDestroy); (3600040, CallShouldReport eventB)]
          (new options2 host0)).1).
Proof.
  apply (entries_stay_well_formed plainDigest options2 host0
           [(0, CallShouldReport eventA); (5, CallGetStats);
            (5, CallShouldReport eventA); (10, CallShouldReport eventB);
            (3600020, CallCleanup); (3600020, CallShouldReport eventA);
            (3600030, CallDestroy); (3600040, CallShouldReport eventB)]).
  reflexivity.
Defined.

(** ** The further statements at sample inputs *)

Lemma first_admit_witness :
  (shouldReport plainDigest eventA 0 limiter2).1 = true
  ∧ trackedErrors (getStats (shouldReport plainDigest eventA 0 limiter2).2) = 1%nat.
Proof.
  destruct (first_admit plainDigest eventA 0 limiter2 eq_refl) as (Hok & _ & Hn).
  split; [exact Hok | exact Hn].
Defined.

Lemma shouldReport_own_key_only_witness :
  errorCounts
    (shouldReport plainDigest eventB 5
       (shouldReport plainDigest eventA 0 limiter2).2).2
  !! getErrorFingerprint plainDigest eventA = Some (freshEntry 0)
  ∧ trackedErrors
      (getStats
         (shouldReport plainDigest eventA 5
            (shouldReport plainDigest eventA 0 limiter2).2).2) = 1%nat.
Proof.
  split.
  - destruct (shouldReport_own_key_only plainDigest eventB 5
                (shouldReport plainDigest eventA 0 limiter2).2) as (Hother & _).
    rewrite (Hother (getErrorFingerprint plainDigest eventA));
      [reflexivity | vm_compute; discriminate].
  - destruct (shouldReport_own_key_only plainDigest eventA 5
                (shouldReport plainDigest eventA 0 limiter2).2)
      as (_ & _ & Hsize & _).
    rewrite Hsize; [reflexivity | by eexists].
Defined.

Lemma shouldReport_drop_iff_witness :
  (shouldReport plainDigest eventA 5
     (reportAll plainDigest [(eventA, 0); (eventA, 1)] limiter2).2).1 = false.
Proof.
  apply (proj2 (shouldReport_drop_iff plainDigest eventA 5
                  (reportAll plainDigest [(eventA, 0); (eventA, 1)] limiter2).2)).
  exists {| count := 2; firstSeen := 0; lastSeen := 1 |}.
  split; [reflexivity|]. split; vm_compute; discriminate.
Defined.

Lemma cap_after_reset_witness :
  (reportAll plainDigest
     [(eventA, 3600001); (eventA, 3600002); (eventA, 7200001)]
     (shouldReport plainDigest eventA 0 limiter2).2).1
  = [true; true; false].
Proof.
  apply (cap_after_reset plainDigest
           (shouldReport plainDigest eventA 0 limiter2).2 (freshEntry 0)
           eventA 3600001 [(eventA, 3600002); (eventA, 7200001)]).
  - vm_compute. discriminate.
  - reflexivity.
  - vm_compute. reflexivity.
  - repeat constructor.
  - repeat constructor; vm_compute; discriminate.
Defined.

Lemma nonpositive_cap_admits_one_witness :
  (reportAll plainDigest [(eventA, 0); (eventA, 1); (eventA, 2)]
     (new {| opt_maxReportsPerWindow := Some 0;
             opt_windowHours := Some 1;
             opt_cleanupIntervalMinutes := None |} host0).1).1
  = [true; false; false].
Proof.
  apply (nonpositive_cap_admits_one plainDigest
           (new {| opt_maxReportsPerWindow := Some 0;
                   opt_windowHours := Some 1;
                   opt_cleanupIntervalMinutes := None |} host0).1
           eventA 0 [(eventA, 1); (eventA, 2)]).
  - vm_compute. discriminate.
  - reflexivity.
  - repeat constructor.
  - repeat constructor; vm_compute; discriminate.
Defined.

Lemma cleanup_absorbs_earlier_witness :
  cleanup 3700000
    (cleanup 4000000
       (reportAll plainDigest [(eventA, 0); (eventB, 3000000)] limiter2).2)
  = cleanup 4000000
      (reportAll plainDigest [(eventA, 0); (eventB, 3000000)] limiter2).2.
Proof.
  apply (cleanup_absorbs_earlier 3700000 4000000
           (reportAll plainDigest [(eventA, 0); (eventB, 3000000)] limiter2).2).
  lia.
Defined.

Lemma getStats_lists_entries_witness :
  {| stat_fingerprint := getErrorFingerprint plainDigest eventA;
     stat_count := 1;
     stat_firstSeen := {| getTime := 0 |};
     stat_lastSeen := {| getTime := 0 |} |}
  ∈ errors (getStats (shouldReport plainDigest eventA 0 limiter2).2).
Proof.
  apply (proj2 (proj2 (getStats_lists_entries
                         (shouldReport plainDigest eventA 0 limiter2).2))).
  reflexivity.
Defined.

Lemma sweeper_runs_until_destroy_witness :
  intervals
    (run plainDigest
       [(0, CallShouldReport eventA); (5, CallCleanup); (6, CallGetStats)]
       (new options2 host0)).2 !! 0%N = Some 900000
  ∧ intervals
      (run plainDigest [(0, CallShouldReport eventA)]
         (new {| opt_maxReportsPerWindow := None;
                 opt_windowHours := None;
                 opt_cleanupIntervalMinutes := Some 40000 |} host0)).2 !! 0%N
    = Some 1.
Proof.
  split.
  - destruct (sweeper_runs_until_destroy plainDigest options2 host0
                [(0, CallShouldReport eventA); (5, CallCleanup); (6, CallGetStats)])
      as (_ & Hin & _).
    + repeat constructor.
    + apply Hin. vm_compute. split; discriminate.
  - destruct (sweeper_runs_until_destroy plainDigest
                {| opt_maxReportsPerWindow := None;
                   opt_windowHours := None;
                   opt_cleanupIntervalMinutes := Some 40000 |} host0
                [(0, CallShouldReport eventA)])
      as (_ & _ & Hout).
    + repeat constructor.
    + apply Hout. right. vm_compute. reflexivity.
Defined.

Lemma configuration_is_fixed_witness :
  windowMs
    (run plainDigest [(0, CallShouldReport eventA); (9, CallDestroy)]
       (new options2 host0)).1 = 3600000.
Proof.
  destruct (configuration_is_fixed plainDigest options2 host0
              [(0, CallShouldReport eventA); (9, CallDestroy)])
    as (_ & Hw & _).
  - split; vm_compute; discriminate.
  - exact Hw.
Defined.

Lemma destroy_cancels_sweeper_witness :
  intervals
    (run plainDigest [(0, CallShouldReport eventA); (9, CallDestroy)]
       (new options2 {| intervals := {[ 7%N := 1000 ]}; nextHandle := 8%N |})).2
  !! 7%N = Some 1000.
Proof.
  destruct (destroy_cancels_sweeper plainDigest options2
              {| intervals := {[ 7%N := 1000 ]}; nextHandle := 8%N |}
              [(0, CallShouldReport eventA)] 9) as (_ & _ & Hother).
  assert (7%N ≠ 8%N) as Hne by discriminate.
  exact (Hother 7%N Hne).
Defined.

Lemma sweeps_do_not_change_decisions_witness :
  decisions plainDigest
    [(0, CallShouldReport eventA); (10, CallShouldReport eventA);
     (3600005, CallCleanup); (3600006, CallShouldReport eventA);
     (3600020, CallCleanup); (3600021, CallShouldReport eventA)]
    (new options2 host0)
  = decisions plainDigest
      [(0, CallShouldReport eventA); (10, CallShouldReport eventA);
       (3600006, CallShouldReport eventA); (3600021, CallShouldReport eventA)]
      (new options2 host0).
Proof.
  apply (sweeps_do_not_change_decisions plainDigest options2 host0
           [(0, CallShouldReport eventA); (10, CallShouldReport eventA);
            (3600005, CallCleanup); (3600006, CallShouldReport eventA);
            (3600020, CallCleanup); (3600021, CallShouldReport eventA)]).
  reflexivity.
Defined.

Lemma fingerprint_keeps_last_three_witness :
  getErrorFingerprint plainDigest
    (eventWithFrames (Some "m") (Some "T") None
       [frame "main.js" 1; frame "a.js" 2; frame "b.js" 3; frame "c.js" 4])
  = getErrorFingerprint plainDigest
      (eventWithFrames (Some "m") (Some "T") None
         [frame "a.js" 2; frame "b.js" 3; frame "c.js" 4]).
Proof.
  apply (fingerprint_keeps_last_three plainDigest (Some "m") (Some "T") None
           [frame "main.js" 1] [frame "a.js" 2; frame "b.js" 3; frame "c.js" 4]).
  reflexivity.
Defined.

Lemma fingerprint_reads_first_exception_witness :
  getErrorFingerprint plainDigest
    (eventWithFrames (Some "boom") (Some "T") (Some "one") [])
  = getErrorFingerprint plainDigest
      (eventWithFrames (Some "boom") (Some "T") (Some "two") []).
Proof.
  apply (proj2 (fingerprint_reads_first_exception plainDigest None
                  {| type := None; value := None; stacktrace := None |} []
                  "boom" (Some "T") (Some "one") (Some "two") [])).
  discriminate.
Defined.

Lemma colon_free_parts_are_separated_witness :
  fingerprintInput eventA ≠ fingerprintInput eventBarOne.
Proof.
  apply (colon_free_parts_are_separated eventA eventBarOne);
    try reflexivity.
  left. discriminate.
Defined.
